(** * ts-order: the step-list builder [Order] and the standalone comparators

    A shallow embedding of [src/order.ts] and [src/comparator/index.ts].

    - JavaScript numbers are IEEE binary64 values: Rocq's primitive [float].
      The tests [r !== 0] and [r > 0] are [negb (r =? 0)] and [0 <? r], so a
      comparator that answers NaN, an infinity or a fraction is covered.
    - Keys have the TypeScript type [unknown]; the relational operator [<] on
      them is a member of the class [Unknown] and [x > y] is [y < x], as the
      language defines it for values whose conversion has no side effect.
    - Key functions, predicates and comparators are pure functions.
    - [Array.prototype.sort] belongs to the host: the class [HostSort] says
      what every engine's procedure has in common, the comparison it is
      handed is the language's [SortCompare] ([undefined] elements last, a
      NaN answer read as [+0]), and insertion sort is the instance the
      examples run with.
    - Arrays of elements live in a store of array instances so that identity
      and mutation can be stated; [Order.sort] runs in a small state monad
      that also logs every call of a step's key function. *)

From Stdlib Require Import List ZArith Bool Lia Floats Permutation.
Import ListNotations.

Set Implicit Arguments.

(* ------------------------------------------------------------------ *)
(** ** The host language *)

Module Host.

(** The values of type [unknown], with the relational operator [<] and the
    value [undefined] (what reading a hole of an array gives). The language
    compares two values after converting both the same way, by a strict
    order on strings or on numbers in which NaN is below nothing: [<] never
    holds in both directions. *)
Class Unknown : Type := {
  unknown : Type;
  lt : unknown -> unknown -> bool;
  undefined : unknown;
  lt_asym : forall x y, lt x y = true -> lt y x = false
}.

(** [x > y]: the same abstract comparison with the operands swapped. *)
Definition gt {U : Unknown} (x y : unknown) : bool := lt y x.

(** What the host's sort needs to know of an element: whether it is the
    value [undefined]. *)
Class Element (A : Type) : Type := { is_undefined : A -> bool }.

(** Array indexes are numbers, never [undefined]. *)
#[export] Instance index_element : Element nat :=
  {| is_undefined := fun _ => false |}.

(** [r !== 0] on numbers. *)
Definition nonzero (r : float) : bool := negb (r =? 0)%float.

(** [r > 0] on numbers. *)
Definition gt_zero (r : float) : bool := (0 <? r)%float.

(** Storing a number in an [Int8Array]: wrap-around to [-128, 127]. *)
Definition to_int8 (z : Z) : Z := ((z + 128) mod 256 - 128)%Z.

(** The number read back from an integer slot. *)
Definition number_of_Z (z : Z) : float :=
  if (z <? 0)%Z
  then (- PrimFloat.of_uint63 (Uint63.of_Z (- z)))%float
  else PrimFloat.of_uint63 (Uint63.of_Z z).

(** [for (let i = 0; i < n; i++) { body }  return fallthrough;] where the
    body either returns a value ([Some]) or falls to the next round
    ([None], also what [continue] does). *)
Fixpoint for_rounds {I R : Type} (body : I -> option R) (rounds : list I)
  : option R :=
  match rounds with
  | [] => None
  | i :: rest =>
      match body i with
      | Some r => Some r
      | None => for_rounds body rest
      end
  end.

Definition for_return {R : Type} (n : nat) (body : nat -> option R)
    (fallthrough : R) : R :=
  match for_rounds body (seq 0 n) with
  | Some r => r
  | None => fallthrough
  end.

(** *** [Array.prototype.sort]

    The comparison the host's sort performs on two elements: [undefined]
    elements go last without the comparator being asked, and a NaN answer
    counts as [+0]. *)
Definition SortCompare {A : Type} {E : Element A}
    (comparefn : A -> A -> float) (x y : A) : float :=
  if is_undefined x && is_undefined y then 0%float
  else if is_undefined x then 1%float
  else if is_undefined y then (-1)%float
  else
    let v := comparefn x y in
    if PrimFloat.is_nan v then 0%float else v.

Unset Implicit Arguments.

(** The host's sorting procedure, handed the comparison to perform. An
    engine is free in its choice of algorithm, within these bounds: it sees
    the elements only through the comparison, so it commutes with a renaming
    of the elements that preserves the comparison; its result is a
    rearrangement of its input; and it is stable, so a list all of whose
    comparisons answer [+0] is left as it is. *)
Class HostSort : Type := {
  host_sort : forall A : Type, (A -> A -> float) -> list A -> list A;
  host_sort_natural :
    forall (A B : Type) (f : A -> B) (scA : A -> A -> float)
           (scB : B -> B -> float) (l : list A),
      (forall x y, In x l -> In y l -> scA x y = scB (f x) (f y)) ->
      List.map f (host_sort A scA l) = host_sort B scB (List.map f l);
  host_sort_perm :
    forall (A : Type) (sc : A -> A -> float) (l : list A),
      Permutation (host_sort A sc l) l;
  host_sort_ties :
    forall (A : Type) (sc : A -> A -> float) (l : list A),
      (forall x y, In x l -> In y l -> sc x y = 0%float) ->
      host_sort A sc l = l
}.

Set Implicit Arguments.

(** [array.sort(comparefn)], as a value: the sorted elements. *)
Definition Array_sort {HS : HostSort} {A : Type} {E : Element A}
    (comparefn : A -> A -> float) (l : list A) : list A :=
  host_sort A (SortCompare comparefn) l.

(** One such procedure, to run the definitions with: insertion from the
    right, an element passing only those it is strictly greater than. *)
Fixpoint insert {A : Type} (sc : A -> A -> float) (x : A) (l : list A)
  : list A :=
  match l with
  | [] => [x]
  | y :: l' => if gt_zero (sc x y) then y :: insert sc x l' else x :: l
  end.

Fixpoint stable_sort {A : Type} (sc : A -> A -> float) (l : list A)
  : list A :=
  match l with
  | [] => []
  | x :: l' => insert sc x (stable_sort sc l')
  end.

(** [typeof a === 'number']: the number a value is, if it is one. *)
Class Typeof (A : Type) : Type := { as_number : A -> option float }.

(** A number is a number. *)
#[export] Instance number_typeof : Typeof float :=
  {| as_number := fun n => Some n |}.

(** [typeof a === 'number' && Number.isNaN(a)]. *)
Definition is_nan_number {A : Type} {TY : Typeof A} (a : A) : bool :=
  match as_number a with
  | Some n => PrimFloat.is_nan n
  | None => false
  end.

End Host.

Import Host.

(* ------------------------------------------------------------------ *)
(** ** [types.ts]: directions and key options *)

Inductive Direction : Type := asc | desc.

(** [type DirectionSign = 1 | -1]. *)
Inductive DirectionSign : Type := Plus1 | Minus1.

Definition sign_value (d : DirectionSign) : Z :=
  match d with Plus1 => 1 | Minus1 => -1 end.

(** A direction sign used as a number. *)
Definition sign_number (d : DirectionSign) : float :=
  number_of_Z (sign_value d).

Definition directionSignByDirection (d : Direction) : DirectionSign :=
  match d with asc => Plus1 | desc => Minus1 end.

(** [T | null | undefined]. *)
Inductive Nullable (T : Type) : Type :=
| JNull
| JUndefined
| JValue (v : T).
Arguments JNull {T}.
Arguments JUndefined {T}.
Arguments JValue {T} v.

(** [a == null]. *)
Definition eq_null {T : Type} (a : Nullable T) : bool :=
  match a with
  | JValue _ => false
  | _ => true
  end.

(** A [Date], as far as the comparators look at it: its time value. *)
Record Date : Type := { getTime : float }.

Module KeyOptions.
Record t {U : Unknown} (T : Type) : Type := mk {
  direction : option Direction;
  compare : option (unknown -> unknown -> float);
  predicate : option (T -> bool)
}.
Arguments mk {U T} direction compare predicate.
End KeyOptions.

(** [options?.direction ?? 'asc'] and the two other optional members. *)
Definition options_direction {U : Unknown} {T : Type}
    (options : option (KeyOptions.t T)) : Direction :=
  match options with
  | Some o =>
      match KeyOptions.direction o with Some d => d | None => asc end
  | None => asc
  end.

Definition options_compare {U : Unknown} {T : Type}
    (options : option (KeyOptions.t T))
  : option (unknown -> unknown -> float) :=
  match options with Some o => KeyOptions.compare o | None => None end.

Definition options_predicate {U : Unknown} {T : Type}
    (options : option (KeyOptions.t T)) : option (T -> bool) :=
  match options with Some o => KeyOptions.predicate o | None => None end.

(* ------------------------------------------------------------------ *)
(** ** [comparator/index.ts]: the standalone comparators *)

Module Comparator.
Section Definitions.
Context {U : Unknown}.

Definition Comparator (T : Type) : Type := T -> T -> float.

Definition reverse {T : Type} (compareFn : Comparator T) : Comparator T :=
  fun a b => compareFn b a.

Definition compare (a b : unknown) : float :=
  if lt a b then (-1)%float
  else if gt a b then 1%float
  else 0%float.

Definition number (a b : float) : float :=
  let isANaN := PrimFloat.is_nan a in
  let isBNaN := PrimFloat.is_nan b in
  if isANaN && isBNaN then 0%float
  else if isANaN then (-1)%float
  else if isBNaN then 1%float
  else (a - b)%float.

Definition by_ {T : Type} (key : T -> unknown)
    (options : option (KeyOptions.t T)) : Comparator T :=
  let compareFn :=
    match options_compare options with Some c => c | None => compare end in
  let direction := options_direction options in
  let predicate := options_predicate options in
  let compareFnWithDirection :=
    match direction with asc => compareFn | desc => reverse compareFn end in
  match predicate with
  | None => fun a b => compareFnWithDirection (key a) (key b)
  | Some p =>
      fun a b =>
        if negb (p a) || negb (p b) then 0%float
        else compareFnWithDirection (key a) (key b)
  end.

Definition order {T : Type} (comparators : list (Comparator T))
  : Comparator T :=
  fun a b =>
    for_return (length comparators)
      (fun i =>
         match nth_error comparators i with
         | Some c => let r := c a b in if nonzero r then Some r else None
         | None => None
         end)
      0%float.

(** [nullsFirst]: after the test of both arguments against null, the
    first argument is tested, then the second; two defined values go to
    [compareFn]. *)
Definition nullsFirst {T : Type} (compareFn : Comparator T)
  : Comparator (Nullable T) :=
  fun a b =>
    if eq_null a && eq_null b then 0%float
    else
      match a, b with
      | JValue x, JValue y => compareFn x y
      | JValue _, _ => 1%float
      | _, _ => (-1)%float
      end.

(** [nullsLast]: the same tests with the two signs exchanged. *)
Definition nullsLast {T : Type} (compareFn : Comparator T)
  : Comparator (Nullable T) :=
  fun a b =>
    if eq_null a && eq_null b then 0%float
    else
      match a, b with
      | JValue x, JValue y => compareFn x y
      | JValue _, _ => (-1)%float
      | _, _ => 1%float
      end.

Definition nansFirst {T : Type} {TY : Typeof T} (compareFn : Comparator T)
  : Comparator T :=
  fun a b =>
    let isANaN := is_nan_number a in
    let isBNaN := is_nan_number b in
    if isANaN && isBNaN then 0%float
    else if isANaN then (-1)%float
    else if isBNaN then 1%float
    else compareFn a b.

Definition nansLast {T : Type} {TY : Typeof T} (compareFn : Comparator T)
  : Comparator T :=
  fun a b =>
    let isANaN := is_nan_number a in
    let isBNaN := is_nan_number b in
    if isANaN && isBNaN then 0%float
    else if isANaN then 1%float
    else if isBNaN then (-1)%float
    else compareFn a b.

(** [Number(a)] on a boolean. *)
Definition Number_of_boolean (a : bool) : float :=
  if a then 1%float else 0%float.

Definition boolean (a b : bool) : float :=
  (Number_of_boolean a - Number_of_boolean b)%float.

Definition date (a b : Date) : float :=
  let aTime := getTime a in
  let bTime := getTime b in
  let isANaN := PrimFloat.is_nan aTime in
  let isBNaN := PrimFloat.is_nan bTime in
  if isANaN && isBNaN then 0%float
  else if isANaN then (-1)%float
  else if isBNaN then 1%float
  else (aTime - bTime)%float.

(** [map(map, compareFn = compare)]: an absent comparator is [compare]. *)
Definition map {T : Type} (mapper : T -> unknown)
    (compareFn : option (Comparator unknown)) : Comparator T :=
  let compareFn :=
    match compareFn with Some c => c | None => compare end in
  fun a b => compareFn (mapper a) (mapper b).

Definition when {T : Type} (predicate : T -> bool) (compareFn : Comparator T)
  : Comparator T :=
  fun a b =>
    let aMatch := predicate a in
    let bMatch := predicate b in
    if aMatch && bMatch then compareFn a b else 0%float.

End Definitions.
End Comparator.

(* ------------------------------------------------------------------ *)
(** ** [order.ts]: steps *)

Module OrderStep.
Record t {U : Unknown} (T : Type) : Type := mk {
  key : T -> unknown;
  direction : DirectionSign;
  compare : option (unknown -> unknown -> float);
  predicate : option (T -> bool)
}.
Arguments mk {U T} key direction compare predicate.
End OrderStep.

(** The part that the derived comparator and the index comparator of
    [Order.sort] both spell out once two keys [x] and [y] are at hand
    (lines 186-193 and 257-266): [Some] is a [return], [None] falls to the
    next step. [d] is the step's direction as a number. *)
Definition compare_keys {U : Unknown}
    (c : option (unknown -> unknown -> float)) (d : float) (x y : unknown)
  : option float :=
  match c with
  | Some c =>
      let r := c x y in
      if nonzero r then Some (if gt_zero r then d else (- d)%float)
      else None
  | None =>
      if lt x y then Some (- d)%float
      else if gt x y then Some d
      else None
  end.

(* ------------------------------------------------------------------ *)
(** ** The store of arrays and the log of key calls *)

Module Store.
Section Definitions.
Context {T : Type}.

(** An array instance is named by its position in the store. *)
Definition ref : Type := nat.

(** A key call: the step's position and the element's index. *)
Definition key_call : Type := (nat * nat)%type.

Record world : Type := mkWorld {
  arrays : list (list T);
  key_calls : list key_call
}.

Definition M (A : Type) : Type := world -> A * world.

Definition ret {A : Type} (a : A) : M A := fun w => (a, w).

Definition bind {A B : Type} (m : M A) (f : A -> M B) : M B :=
  fun w => let (a, w') := m w in f a w'.

(** The elements of an array instance. *)
Definition contents (r : ref) (w : world) : list T := nth r (arrays w) [].

Definition read (r : ref) : M (list T) := fun w => (contents r w, w).

(** A new array instance holding [l]. *)
Definition new_array (l : list T) : M ref :=
  fun w => (length (arrays w),
            {| arrays := arrays w ++ [l]; key_calls := key_calls w |}).

(** [array.slice()]. *)
Definition slice (r : ref) : M ref := bind (read r) new_array.

Definition log_key_call (j i : nat) : M unit :=
  fun w => (tt, {| arrays := arrays w;
                   key_calls := key_calls w ++ [(j, i)] |}).

End Definitions.
End Store.

Declare Scope store_scope.
Delimit Scope store_scope with store.
Notation "x <- m ;; k" := (Store.bind m (fun x => k))
  (at level 61, m at next level, right associativity) : store_scope.
Notation "' pat <- m ;; k" :=
  (Store.bind m (fun x => match x with pat => k end))
  (at level 61, pat pattern, m at next level, right associativity)
  : store_scope.

(* ------------------------------------------------------------------ *)
(** ** [order.ts]: the class [Order] *)

Module Order.
Section Definitions.
Context {U : Unknown}.

Record t (T : Type) : Type := mk { _steps : list (OrderStep.t T) }.

(** The three shapes of the constructor's argument. *)
Inductive source (T : Type) : Type :=
| NoSource
| OneSource (s : option (t T))
| ManySources (ss : list (option (t T))).
Arguments NoSource {T}.

(** [new Order(sourceOrSources)]: a null source and a source without steps
    add nothing; the steps of the others are pushed in order. *)
Definition steps_of_source {T : Type} (s : option (t T))
  : list (OrderStep.t T) :=
  match s with
  | Some o => if (length (_steps o) =? 0)%nat then [] else _steps o
  | None => []
  end.

Definition new {T : Type} (sourceOrSources : source T) : t T :=
  match sourceOrSources with
  | NoSource => mk []
  | OneSource s => mk (steps_of_source s)
  | ManySources ss => mk (flat_map steps_of_source ss)
  end.

Definition by_ {T : Type} (selectorFn : T -> unknown)
    (options : option (KeyOptions.t T)) : t T :=
  let direction := directionSignByDirection (options_direction options) in
  let compare := options_compare options in
  mk [ OrderStep.mk selectorFn direction compare
         (options_predicate options) ].

(** The instance method [by]. *)
Definition then_by {T : Type} (this : t T) (selectorFn : T -> unknown)
    (options : option (KeyOptions.t T)) : t T :=
  let direction := directionSignByDirection (options_direction options) in
  let compare := options_compare options in
  mk (_steps this ++
      [ OrderStep.mk selectorFn direction compare
          (options_predicate options) ]).

Definition reverse {T : Type} (input : t T) : t T :=
  if (length (_steps input) =? 0)%nat then new NoSource
  else
    mk (List.map
          (fun s =>
             OrderStep.mk (OrderStep.key s)
               (match OrderStep.direction s with
                | Plus1 => Minus1
                | Minus1 => Plus1
                end)
               (OrderStep.compare s)
               (OrderStep.predicate s))
          (_steps input)).

Definition map {T K : Type} (outer : T -> K) (sub : t K) : t T :=
  if (length (_steps sub) =? 0)%nat then new NoSource
  else
    mk (List.map
          (fun s =>
             OrderStep.mk (fun t0 : T => OrderStep.key s (outer t0))
               (OrderStep.direction s)
               (OrderStep.compare s)
               (match OrderStep.predicate s with
                | Some p => Some (fun t0 : T => p (outer t0))
                | None => None
                end))
          (_steps sub)).

Definition when {T : Type} (predicate : T -> bool) (input : t T) : t T :=
  if (length (_steps input) =? 0)%nat then new NoSource
  else
    mk (List.map
          (fun step =>
             OrderStep.mk (OrderStep.key step)
               (OrderStep.direction step)
               (OrderStep.compare step)
               (match OrderStep.predicate step with
                | Some p => Some (fun value : T => p value && predicate value)
                | None => Some predicate
                end))
          (_steps input)).

(** The instance method [map]. *)
Definition then_map {T K : Type} (this : t T) (outer : T -> K) (sub : t K)
  : t T :=
  if (length (_steps this) =? 0)%nat then map outer sub
  else
    let mappedOrder := map outer sub in
    mk (_steps this ++ _steps mappedOrder).

(** The instance method [when]. *)
Definition then_when {T : Type} (this : t T) (predicate : T -> bool)
    (order : t T) : t T :=
  let guarded := when predicate order in
  if (length (_steps this) =? 0)%nat then guarded
  else if (length (_steps guarded) =? 0)%nat then new (OneSource (Some this))
  else mk (_steps this ++ _steps guarded).

(** One round of the loop of the getter [compare] (lines 181-193). *)
Definition compare_step {T : Type} (s : OrderStep.t T) (a b : T)
  : option float :=
  let p := OrderStep.predicate s in
  let skip :=
    match p with
    | Some p => negb (p a) || negb (p b)
    | None => false
    end in
  if skip then None
  else
    let x := OrderStep.key s a in
    let y := OrderStep.key s b in
    let c := OrderStep.compare s in
    compare_keys c (sign_number (OrderStep.direction s)) x y.

(** The getter [compare]. *)
Definition compare {T : Type} (this : t T) : T -> T -> float :=
  let steps := _steps this in
  let numberOfSteps := length steps in
  if (numberOfSteps =? 0)%nat then fun _ _ => 0%float
  else
    fun a b =>
      for_return numberOfSteps
        (fun i =>
           match nth_error steps i with
           | Some s => compare_step s a b
           | None => None
           end)
        0%float.

End Definitions.

(** *** [Order.sort] *)

Section Sort.
Context {U : Unknown} {HS : HostSort} {T : Type}.
Local Open Scope store_scope.

(** [step.key(item)], logged as a call of step [j] on element [i]. *)
Definition call_key (j i : nat) (step : OrderStep.t T) (item : T)
  : Store.M (T:=T) unknown :=
  _ <- Store.log_key_call j i ;;
  Store.ret (OrderStep.key step item).

(** Lines 219-225: the guarded step's pass over the elements, from index
    [i] on. A slot of [keys] that stays a hole reads as [undefined]. *)
Fixpoint decorate_guarded (j : nat) (step : OrderStep.t T)
    (predicate : T -> bool) (i : nat) (items : list T)
  : Store.M (T:=T) (list unknown * list bool) :=
  match items with
  | [] => Store.ret ([], [])
  | item :: rest =>
      let match_ := predicate item in
      k <- (if match_ then call_key j i step item else Store.ret undefined) ;;
      ' (keys, matches) <- decorate_guarded j step predicate (S i) rest ;;
      Store.ret (k :: keys, match_ :: matches)
  end.

(** Lines 228-230: the pass of a step without predicate. *)
Fixpoint decorate_all (j : nat) (step : OrderStep.t T) (i : nat)
    (items : list T) : Store.M (T:=T) (list unknown) :=
  match items with
  | [] => Store.ret []
  | item :: rest =>
      k <- call_key j i step item ;;
      keys <- decorate_all j step (S i) rest ;;
      Store.ret (k :: keys)
  end.

(** Lines 214-233: [keysPerStep] and [predicateMatchesPerStep], from step
    [j] on. *)
Fixpoint decorate (j : nat) (steps : list (OrderStep.t T)) (items : list T)
  : Store.M (T:=T) (list (list unknown) * list (option (list bool))) :=
  match steps with
  | [] => Store.ret ([], [])
  | step :: rest =>
      match OrderStep.predicate step with
      | Some predicate =>
          ' (keys, matches) <- decorate_guarded j step predicate 0 items ;;
          ' (keysPerStep, predicateMatchesPerStep) <-
            decorate (S j) rest items ;;
          Store.ret (keys :: keysPerStep,
                     Some matches :: predicateMatchesPerStep)
      | None =>
          keys <- decorate_all j step 0 items ;;
          ' (keysPerStep, predicateMatchesPerStep) <-
            decorate (S j) rest items ;;
          Store.ret (keys :: keysPerStep, None :: predicateMatchesPerStep)
      end
  end.

(** One round of the loop of the index comparator (lines 252-266). *)
Definition index_compare_step (keysPerStep : list (list unknown))
    (predicateMatchesPerStep : list (option (list bool)))
    (dirs : list Z) (cmps : list (option (unknown -> unknown -> float)))
    (ia ib j : nat) : option float :=
  let kj := nth j keysPerStep [] in
  let matches := nth j predicateMatchesPerStep None in
  let skip :=
    match matches with
    | Some matches => negb (nth ia matches false) || negb (nth ib matches false)
    | None => false
    end in
  if skip then None
  else
    let a := nth ia kj undefined in
    let b := nth ib kj undefined in
    let c := nth j cmps None in
    let d := number_of_Z (nth j dirs 0%Z) in
    compare_keys c d a b.

(** The comparator handed to [arrayIndexes.sort] (lines 250-270). *)
Definition index_compare (numberOfSteps : nat)
    (keysPerStep : list (list unknown))
    (predicateMatchesPerStep : list (option (list bool)))
    (dirs : list Z) (cmps : list (option (unknown -> unknown -> float)))
    (ia ib : nat) : float :=
  for_return numberOfSteps
    (index_compare_step keysPerStep predicateMatchesPerStep dirs cmps ia ib)
    0%float.

(** Lines 272-273: [out[i] = array[arrayIndexes[i]!]!]. The sorted indexes
    are a permutation of [0 .. n-1] (see [sorted_indexes_in_range]), so the
    branch for an index out of range is never taken. *)
Definition materialize (elements : list T) (arrayIndexes : list nat)
  : list T :=
  flat_map
    (fun ix =>
       match nth_error elements ix with
       | Some item => [item]
       | None => []
       end)
    arrayIndexes.

Definition sort (array : Store.ref) (order : t T)
  : Store.M (T:=T) Store.ref :=
  let steps := _steps order in
  elements <- Store.read array ;;
  let arrayLength := length elements in
  if (arrayLength <=? 1)%nat then Store.slice array
  else if (length steps =? 0)%nat then Store.slice array
  else
    let numberOfSteps := length steps in
    ' (keysPerStep, predicateMatchesPerStep) <- decorate 0 steps elements ;;
    let arrayIndexes := seq 0 arrayLength in
    let dirs :=
      List.map (fun s => to_int8 (sign_value (OrderStep.direction s)))
        steps in
    let cmps := List.map (fun s => OrderStep.compare s) steps in
    let sortedIndexes :=
      Array_sort
        (index_compare numberOfSteps keysPerStep predicateMatchesPerStep
           dirs cmps)
        arrayIndexes in
    Store.new_array (materialize elements sortedIndexes).

(** The instance method [sort]. *)
Definition sort_by (this : t T) (array : Store.ref)
  : Store.M (T:=T) Store.ref :=
  sort array this.

(** [Order.sort] applied to a fresh array holding [elements], in a store
    holding nothing else: the elements of the result. *)
Definition sorted (elements : list T) (order : t T) : list T :=
  let (r, w) := sort 0 order (Store.mkWorld [elements] []) in
  Store.contents r w.

(** ... and the key calls it made. *)
Definition sort_key_calls (elements : list T) (order : t T)
  : list Store.key_call :=
  Store.key_calls (snd (sort 0 order (Store.mkWorld [elements] []))).

End Sort.
End Order.

(* ------------------------------------------------------------------ *)
(** ** A universe of primitive values, for running the definitions *)

Module Prim.

Inductive value : Type :=
| Undefined
| Null
| Boolean (b : bool)
| Number (n : float).

(** [ToNumber]. *)
Definition ToNumber (v : value) : float :=
  match v with
  | Undefined => PrimFloat.nan
  | Null => 0%float
  | Boolean b => if b then 1%float else 0%float
  | Number n => n
  end.

(** [x < y] on values none of which is a string. *)
Definition lt (x y : value) : bool := (ToNumber x <? ToNumber y)%float.

(** An array element that may be [undefined]. *)
Definition value_is_undefined (v : value) : bool :=
  match v with Undefined => true | _ => false end.

End Prim.

Unset Implicit Arguments.

(* ------------------------------------------------------------------ *)
(** ** Facts about numbers *)

(** *** Subtraction keeps the sign of the comparison

    The specification of binary64 subtraction aligns the two mantissas,
    subtracts them as integers and rounds: a difference that is not zero
    never rounds to zero, because the exponent of the aligned mantissas is
    at least the least exponent of the format. *)

Section Rounding.
Local Open Scope Z_scope.

#[local] Abbreviation emin64 := (SpecFloat.emin prec emax).
#[local] Abbreviation fexp64 := (SpecFloat.fexp prec emax).

Lemma digits2_pos_bounds (m : positive) :
  2 ^ (Zpos (digits2_pos m) - 1) <= Zpos m < 2 ^ Zpos (digits2_pos m).
Proof.
  induction m as [p IH|p IH|]; simpl digits2_pos.
  - rewrite Pos2Z.inj_succ.
    replace (Z.succ (Zpos (digits2_pos p)) - 1)
      with (Z.succ (Zpos (digits2_pos p) - 1)) by lia.
    rewrite !Z.pow_succ_r by lia. lia.
  - rewrite Pos2Z.inj_succ.
    replace (Z.succ (Zpos (digits2_pos p)) - 1)
      with (Z.succ (Zpos (digits2_pos p) - 1)) by lia.
    rewrite !Z.pow_succ_r by lia. lia.
  - simpl. lia.
Qed.

Lemma iter_pos_nat {A : Type} (f : A -> A) (n : positive) (x : A) :
  iter_pos f n x = Nat.iter (Pos.to_nat n) f x.
Proof.
  revert x. induction n as [n IH|n IH|]; intros x; cbn [iter_pos].
  - rewrite !IH, Pos2Nat.inj_xI.
    replace (S (2 * Pos.to_nat n))%nat
      with (Pos.to_nat n + (Pos.to_nat n + 1))%nat by lia.
    rewrite !Nat.iter_add. reflexivity.
  - rewrite !IH, Pos2Nat.inj_xO.
    replace (2 * Pos.to_nat n)%nat
      with (Pos.to_nat n + Pos.to_nat n)%nat by lia.
    rewrite Nat.iter_add. reflexivity.
  - reflexivity.
Qed.

(** One step of the right shift halves the mantissa. *)
Lemma shr_1_m (mrs : shr_record) :
  0 <= shr_m mrs -> shr_m (shr_1 mrs) = shr_m mrs / 2.
Proof.
  destruct mrs as [m r s]. cbn [shr_m]. intros H.
  destruct m as [|[p|p|]|p]; cbn [shr_1 shr_m]; try lia.
  - reflexivity.
  - apply Z.div_unique with 1; lia.
  - apply Z.div_unique with 0; lia.
  - reflexivity.
Qed.

Lemma shr_iter_m (k : nat) (mrs : shr_record) :
  0 <= shr_m mrs ->
  shr_m (Nat.iter k shr_1 mrs) = shr_m mrs / 2 ^ Z.of_nat k.
Proof.
  intros H. induction k as [|k IH].
  - simpl. now rewrite Z.div_1_r.
  - rewrite Nat2Z.inj_succ, Z.pow_succ_r by lia. simpl Nat.iter.
    rewrite shr_1_m.
    + rewrite IH, Z.div_div by lia. f_equal. lia.
    + rewrite IH. apply Z.div_pos; lia.
Qed.

Lemma shr_record_of_loc_m (m : Z) (l : location) :
  shr_m (shr_record_of_loc m l) = m.
Proof. destruct l as [|[]]; reflexivity. Qed.

(** Above the least exponent, the shift to the format's precision keeps a
    mantissa that is not zero: it drops fewer digits than there are. *)
Lemma shr_fexp_pos (m : positive) (e : Z) (l : location) :
  emin64 <= e ->
  exists m',
    shr_m (fst (shr_fexp prec emax (Zpos m) e l)) = Zpos m' /\
    emin64 <= snd (shr_fexp prec emax (Zpos m) e l).
Proof.
  intros He. unfold shr_fexp, shr. cbn [Zdigits2].
  pose proof (digits2_pos_bounds m) as [Hlo _].
  set (d := Zpos (digits2_pos m)) in *.
  destruct (fexp64 (d + e) - e) as [|n|n] eqn:En; cbn [fst snd].
  - rewrite shr_record_of_loc_m. eauto.
  - assert (Hn : Zpos n = d - prec).
    { unfold SpecFloat.fexp in En. lia. }
    rewrite iter_pos_nat, shr_iter_m
      by (rewrite shr_record_of_loc_m; lia).
    rewrite shr_record_of_loc_m, positive_nat_Z.
    assert (H2 : 2 ^ Zpos n <= Zpos m).
    { apply Z.le_trans with (2 ^ (d - 1)); [|assumption].
      apply Z.pow_le_mono_r; unfold prec in Hn; lia. }
    assert (Hpos : 0 < Zpos m / 2 ^ Zpos n).
    { apply Z.div_str_pos. split; [|assumption].
      apply Z.pow_pos_nonneg; lia. }
    destruct (Zpos m / 2 ^ Zpos n) as [|q|q]; try lia.
    exists q. split; [reflexivity|lia].
  - rewrite shr_record_of_loc_m. eauto.
Qed.

Lemma round_nearest_even_pos (m : positive) (l : location) :
  exists m', round_nearest_even (Zpos m) l = Zpos m'.
Proof.
  destruct l as [|[]]; simpl; eauto.
  destruct m; simpl; eauto.
Qed.

(** A number that is finite and not zero, or infinite, of sign [s]. *)
Definition signed_as (s : bool) (z : spec_float) : Prop :=
  match z with
  | S754_finite s' _ _ | S754_infinity s' => s' = s
  | _ => False
  end.

Lemma binary_round_aux_sign (s : bool) (m : positive) (e : Z)
    (l : location) :
  emin64 <= e -> signed_as s (binary_round_aux prec emax s (Zpos m) e l).
Proof.
  intros He. unfold binary_round_aux.
  destruct (shr_fexp_pos m e l He) as [m1 [H1 He1]].
  destruct (shr_fexp prec emax (Zpos m) e l) as [mrs1 e1].
  cbn [fst snd] in *. rewrite H1.
  destruct (round_nearest_even_pos m1 (loc_of_shr_record mrs1))
    as [m2 H2].
  rewrite H2.
  destruct (shr_fexp_pos m2 e1 loc_Exact He1) as [m3 [H3 _]].
  destruct (shr_fexp prec emax (Zpos m2) e1 loc_Exact) as [mrs3 e3].
  cbn [fst snd] in *. rewrite H3.
  destruct (e3 <=? emax - prec); reflexivity.
Qed.

Lemma binary_round_sign (s : bool) (m : positive) (e : Z) :
  emin64 <= e -> signed_as s (binary_round prec emax s m e).
Proof.
  intros He. unfold binary_round, shl_align.
  destruct (fexp64 (Zpos (digits2_pos m) + e) - e) as [|n|n] eqn:En.
  - now apply binary_round_aux_sign.
  - now apply binary_round_aux_sign.
  - apply binary_round_aux_sign. unfold SpecFloat.fexp. lia.
Qed.

Lemma iter_xO_value (m d : positive) :
  Zpos (Pos.iter xO m d) = Zpos m * 2 ^ Zpos d.
Proof.
  rewrite (Pos.iter_swap_gen _ _ Zpos xO (Z.mul 2)) by reflexivity.
  rewrite <- Z.shiftl_mul_pow2 by lia. reflexivity.
Qed.

Lemma shl_align_value (m : positive) (e e' : Z) :
  e' <= e -> Zpos (fst (shl_align m e e')) = Zpos m * 2 ^ (e - e').
Proof.
  intros H. unfold shl_align.
  destruct (e' - e) as [|d|d] eqn:E; cbn [fst]; try lia.
  - replace (e - e') with 0 by lia. lia.
  - rewrite iter_xO_value. f_equal. f_equal. lia.
Qed.

(** What the format asks of a mantissa and its exponent. *)
Lemma bounded_canonical (m : positive) (e : Z) :
  bounded prec emax m e = true ->
  Zpos (digits2_pos m) <= prec /\ emin64 <= e /\
  (emin64 < e -> Zpos (digits2_pos m) = prec).
Proof.
  unfold bounded, canonical_mantissa, SpecFloat.fexp.
  intros H. apply andb_prop in H. destruct H as [H _].
  apply Z.eqb_eq in H. lia.
Qed.

(** The mantissas of two numbers of the format, aligned on the lesser
    exponent, compare as the numbers' magnitudes do. *)
Lemma aligned_compare (mx my : positive) (ex ey : Z) :
  bounded prec emax mx ex = true ->
  bounded prec emax my ey = true ->
  (Zpos mx * 2 ^ (ex - Z.min ex ey) ?= Zpos my * 2 ^ (ey - Z.min ex ey)) =
  match ex ?= ey with
  | Lt => Lt
  | Gt => Gt
  | Eq => Pos.compare_cont Eq mx my
  end.
Proof.
  intros Hx Hy.
  destruct (bounded_canonical _ _ Hx) as [Hdx [Hex Hnx]].
  destruct (bounded_canonical _ _ Hy) as [Hdy [Hey Hny]].
  pose proof (digits2_pos_bounds mx) as [Hxl Hxu].
  pose proof (digits2_pos_bounds my) as [Hyl Hyu].
  assert (Hp : 2 ^ prec = 2 * 2 ^ (prec - 1)) by reflexivity.
  destruct (Z.compare_spec ex ey) as [E|E|E].
  - subst. rewrite Z.min_id, Z.sub_diag. simpl (2 ^ 0).
    rewrite !Z.mul_1_r. reflexivity.
  - rewrite Z.min_l, Z.sub_diag by lia. simpl (2 ^ 0). rewrite Z.mul_1_r.
    apply Z.compare_lt_iff.
    rewrite (Hny ltac:(lia)) in Hyl.
    assert (2 ^ 1 <= 2 ^ (ey - ex)) by (apply Z.pow_le_mono_r; lia).
    assert (Zpos mx < 2 ^ prec).
    { eapply Z.lt_le_trans; [eassumption|]. apply Z.pow_le_mono_r; lia. }
    change (2 ^ 1) with 2 in *. nia.
  - rewrite Z.min_r, Z.sub_diag by lia. simpl (2 ^ 0). rewrite Z.mul_1_r.
    apply Z.compare_gt_iff.
    rewrite (Hnx ltac:(lia)) in Hxl.
    assert (2 ^ 1 <= 2 ^ (ex - ey)) by (apply Z.pow_le_mono_r; lia).
    assert (Zpos my < 2 ^ prec).
    { eapply Z.lt_le_trans; [eassumption|]. apply Z.pow_le_mono_r; lia. }
    change (2 ^ 1) with 2 in *. nia.
Qed.

(** Below zero and above zero, as [<] tells. *)
Definition sf_negative (z : spec_float) : bool :=
  SFltb z (S754_zero false).

Definition sf_positive (z : spec_float) : bool :=
  SFltb (S754_zero false) z.

Lemma signed_as_negative (z : spec_float) :
  signed_as true z -> sf_negative z = true /\ sf_positive z = false.
Proof. destruct z as [| | |s m e]; simpl; try tauto; intros ->; auto. Qed.

Lemma signed_as_positive (z : spec_float) :
  signed_as false z -> sf_positive z = true /\ sf_negative z = false.
Proof. destruct z as [| | |s m e]; simpl; try tauto; intros ->; auto. Qed.

Lemma binary_normalize_sign (D e : Z) :
  emin64 <= e ->
  match D ?= 0 with
  | Lt => signed_as true (binary_normalize prec emax D e false)
  | Gt => signed_as false (binary_normalize prec emax D e false)
  | Eq => binary_normalize prec emax D e false = S754_zero false
  end.
Proof.
  intros He. destruct D as [|m|m]; simpl.
  - reflexivity.
  - now apply binary_round_sign.
  - now apply binary_round_sign.
Qed.

Ltac settle_sign Hn :=
  match type of Hn with
  | context [?D ?= 0] =>
      first
        [ replace (D ?= 0) with Eq in Hn
            by (symmetry; apply Z.compare_eq_iff; lia);
          rewrite Hn; split; reflexivity
        | replace (D ?= 0) with Lt in Hn
            by (symmetry; apply Z.compare_lt_iff; lia);
          now apply signed_as_negative in Hn
        | replace (D ?= 0) with Gt in Hn
            by (symmetry; apply Z.compare_gt_iff; lia);
          now apply signed_as_positive in Hn ]
  end.

(** The sign of a difference is what the comparison of its operands says. *)
Lemma SFsub_sign (x y : spec_float) :
  valid_binary x = true -> valid_binary y = true ->
  match SFcompare x y with
  | Some Lt => sf_negative (SF64sub x y) = true
  | Some Gt => sf_positive (SF64sub x y) = true
  | Some Eq => sf_negative (SF64sub x y) = false /\
               sf_positive (SF64sub x y) = false
  | None => True
  end.
Proof.
  intros Hx Hy.
  destruct x as [sx|sx| |sx mx ex], y as [sy|sy| |sy my ey];
    try exact I;
    try (destruct sx, sy; simpl; auto; fail);
    try (destruct sx; simpl; auto; fail);
    try (destruct sy; simpl; auto; fail).
  simpl in Hx, Hy.
  destruct (bounded_canonical _ _ Hx) as [_ [Hex _]].
  destruct (bounded_canonical _ _ Hy) as [_ [Hey _]].
  unfold SF64sub, SFsub.
  rewrite !shl_align_value by lia.
  pose proof (aligned_compare mx my ex ey Hx Hy) as Hc.
  set (ax := Zpos mx * 2 ^ (ex - Z.min ex ey)) in *.
  set (ay := Zpos my * 2 ^ (ey - Z.min ex ey)) in *.
  assert (Hax : 0 < ax)
    by (apply Z.mul_pos_pos; [lia|apply Z.pow_pos_nonneg; lia]).
  assert (Hay : 0 < ay)
    by (apply Z.mul_pos_pos; [lia|apply Z.pow_pos_nonneg; lia]).
  pose proof (binary_normalize_sign
                (cond_Zopp sx ax - cond_Zopp sy ay) (Z.min ex ey)
                ltac:(lia)) as Hn.
  unfold SFcompare.
  destruct sx, sy; cbn [cond_Zopp] in *.
  - replace (match ex ?= ey with
             | Eq => CompOpp (Pos.compare_cont Eq mx my)
             | Lt => Gt
             | Gt => Lt
             end) with (CompOpp (ax ?= ay))
      by (rewrite Hc; destruct (ex ?= ey); reflexivity).
    destruct (Z.compare_spec ax ay) as [E|E|E]; cbn [CompOpp];
      settle_sign Hn.
  - settle_sign Hn.
  - settle_sign Hn.
  - rewrite <- Hc.
    destruct (Z.compare_spec ax ay) as [E|E|E]; settle_sign Hn.
Qed.

End Rounding.

Section NumberFacts.
Local Open Scope float_scope.

Lemma SFcompare_Lt_swap (x y : spec_float) :
  SFcompare x y = Some Lt -> SFcompare y x = Some Gt.
Proof.
  destruct x as [sx|sx| |sx mx ex], y as [sy|sy| |sy my ey]; simpl;
    try discriminate;
    try (destruct sx; discriminate);
    try (destruct sy; discriminate);
    try (destruct sx, sy; (discriminate || reflexivity)).
  intros H. injection H as H. f_equal.
  rewrite (Z.compare_antisym ey ex), (ZC4 mx my) in H.
  destruct sx, sy; try discriminate; try reflexivity;
    destruct (ey ?= ex)%Z; simpl in *; try discriminate; try reflexivity;
    destruct (Pos.compare_cont Eq my mx); simpl in *;
      (discriminate || reflexivity).
Qed.

Lemma Prim2SF_zero : Prim2SF 0 = S754_zero false.
Proof. reflexivity. Qed.

(** The sign of [a - b], read as the host reads a comparator's answer. *)
Lemma sub_sign (a b : float) :
  ((a <? b) = true -> (a - b <? 0) = true) /\
  ((b <? a) = true -> (0 <? a - b) = true) /\
  ((a =? b) = true -> (a - b <? 0) = false /\ (0 <? a - b) = false).
Proof.
  rewrite !ltb_spec, eqb_spec, sub_spec, Prim2SF_zero.
  pose proof (SFsub_sign (Prim2SF a) (Prim2SF b)
                (Prim2SF_valid a) (Prim2SF_valid b)) as H.
  fold (sf_negative (SF64sub (Prim2SF a) (Prim2SF b))).
  fold (sf_positive (SF64sub (Prim2SF a) (Prim2SF b))).
  unfold SFltb at 1 2. unfold SFeqb.
  repeat split.
  - intros Hlt.
    destruct (SFcompare (Prim2SF a) (Prim2SF b)) as [[]|];
      (discriminate || exact H).
  - intros Hgt.
    destruct (SFcompare (Prim2SF b) (Prim2SF a)) as [[]|] eqn:E;
      try discriminate.
    now rewrite (SFcompare_Lt_swap _ _ E) in H.
  - destruct (SFcompare (Prim2SF a) (Prim2SF b)) as [[]|];
      (discriminate || apply H).
  - destruct (SFcompare (Prim2SF a) (Prim2SF b)) as [[]|];
      (discriminate || apply H).
Qed.

Lemma ltb_asym (x y : float) : (x <? y) = true -> (y <? x) = false.
Proof.
  rewrite !ltb_spec. unfold SFltb. intros H.
  destruct (SFcompare (Prim2SF x) (Prim2SF y)) as [[]|] eqn:E;
    try discriminate.
  now rewrite (SFcompare_Lt_swap _ _ E).
Qed.

End NumberFacts.

Lemma Prim_lt_asym (x y : Prim.value) :
  Prim.lt x y = true -> Prim.lt y x = false.
Proof. apply ltb_asym. Qed.

(** The primitive values as the universe [unknown]. *)
Definition prim_unknown : Unknown :=
  {| unknown := Prim.value;
     lt := Prim.lt;
     undefined := Prim.Undefined;
     lt_asym := Prim_lt_asym |}.

Definition prim_element : Element Prim.value :=
  {| is_undefined := Prim.value_is_undefined |}.

(* ------------------------------------------------------------------ *)
(** ** Facts about the host: loops and the stable sort *)

Section HostFacts.

Lemma for_rounds_ext {I R : Type} (f g : I -> option R) (l : list I) :
  (forall i, In i l -> f i = g i) -> for_rounds f l = for_rounds g l.
Proof.
  induction l as [|i l IH]; simpl; intros H; [reflexivity|].
  rewrite (H i) by now left.
  destruct (g i); [reflexivity|]. apply IH. intros; apply H; now right.
Qed.

Lemma for_rounds_map {I J R : Type} (g : I -> J) (f : J -> option R)
    (l : list I) :
  for_rounds f (List.map g l) = for_rounds (fun i => f (g i)) l.
Proof.
  induction l as [|i l IH]; simpl; [reflexivity|].
  destruct (f (g i)); [reflexivity|exact IH].
Qed.

Lemma for_rounds_app {I R : Type} (f : I -> option R) (l1 l2 : list I) :
  for_rounds f (l1 ++ l2) =
  match for_rounds f l1 with
  | Some r => Some r
  | None => for_rounds f l2
  end.
Proof.
  induction l1 as [|i l1 IH]; simpl; [reflexivity|].
  destruct (f i); [reflexivity|exact IH].
Qed.

(** A loop over the indexes of a list that reads the list at each index is
    a loop over the list. *)
Lemma for_rounds_nth_error {A R : Type} (f : A -> option R) (l : list A) :
  for_rounds
    (fun i => match nth_error l i with Some s => f s | None => None end)
    (seq 0 (length l)) =
  for_rounds f l.
Proof.
  induction l as [|s l IH]; simpl; [reflexivity|].
  destruct (f s); [reflexivity|].
  rewrite <- seq_shift, for_rounds_map. exact IH.
Qed.

Lemma insert_In {A : Type} (sc : A -> A -> float) (x y : A) (l : list A) :
  In y (insert sc x l) <-> y = x \/ In y l.
Proof.
  induction l as [|z l IH]; simpl.
  - intuition congruence.
  - destruct (gt_zero (sc x z)); simpl; rewrite ?IH; intuition congruence.
Qed.

Lemma stable_sort_In {A : Type} (sc : A -> A -> float) (y : A) (l : list A) :
  In y (stable_sort sc l) <-> In y l.
Proof.
  induction l as [|x l IH]; simpl; [reflexivity|].
  rewrite insert_In, IH. intuition congruence.
Qed.

Lemma insert_length {A : Type} (sc : A -> A -> float) (x : A) (l : list A) :
  length (insert sc x l) = S (length l).
Proof.
  induction l as [|z l IH]; simpl; [reflexivity|].
  destruct (gt_zero (sc x z)); simpl; congruence.
Qed.

Lemma stable_sort_length {A : Type} (sc : A -> A -> float) (l : list A) :
  length (stable_sort sc l) = length l.
Proof.
  induction l as [|x l IH]; simpl; [reflexivity|].
  now rewrite insert_length, IH.
Qed.

Lemma insert_perm {A : Type} (sc : A -> A -> float) (x : A) (l : list A) :
  Permutation (insert sc x l) (x :: l).
Proof.
  induction l as [|z l IH]; simpl; [reflexivity|].
  destruct (gt_zero (sc x z)); [|reflexivity].
  rewrite IH. apply perm_swap.
Qed.

Lemma stable_sort_perm {A : Type} (sc : A -> A -> float) (l : list A) :
  Permutation (stable_sort sc l) l.
Proof.
  induction l as [|x l IH]; simpl; [reflexivity|].
  now rewrite insert_perm, IH.
Qed.

(** The sort sees its elements only through the comparison: it commutes
    with any renaming of the elements that preserves the comparison. *)
Lemma insert_natural {A B : Type} (f : A -> B) (scA : A -> A -> float)
    (scB : B -> B -> float) (x : A) (l : list A) :
  (forall y, In y l -> scA x y = scB (f x) (f y)) ->
  List.map f (insert scA x l) = insert scB (f x) (List.map f l).
Proof.
  induction l as [|z l IH]; simpl; intros H; [reflexivity|].
  rewrite <- (H z) by now left.
  destruct (gt_zero (scA x z)); simpl; [|reflexivity].
  f_equal. apply IH. intros; apply H; now right.
Qed.

Lemma stable_sort_natural {A B : Type} (f : A -> B) (scA : A -> A -> float)
    (scB : B -> B -> float) (l : list A) :
  (forall x y, In x l -> In y l -> scA x y = scB (f x) (f y)) ->
  List.map f (stable_sort scA l) = stable_sort scB (List.map f l).
Proof.
  induction l as [|x l IH]; simpl; intros H; [reflexivity|].
  rewrite <- IH by (intros; apply H; now right).
  apply insert_natural. intros y Hy. apply H; [now left|].
  right. now apply stable_sort_In in Hy.
Qed.

(** When every comparison answers [+0] nothing moves. *)
Lemma stable_sort_ties {A : Type} (sc : A -> A -> float) (l : list A) :
  (forall x y, In x l -> In y l -> sc x y = 0%float) ->
  stable_sort sc l = l.
Proof.
  induction l as [|x l IH]; simpl; intros H; [reflexivity|].
  rewrite IH by (intros; apply H; now right).
  destruct l as [|y l]; simpl; [reflexivity|].
  now rewrite H by (simpl; auto).
Qed.

(** Insertion sort is a sorting procedure of the host. *)
Definition insertion_sort : HostSort :=
  {| host_sort := @stable_sort;
     host_sort_natural := @stable_sort_natural;
     host_sort_perm := @stable_sort_perm;
     host_sort_ties := @stable_sort_ties |}.

Lemma number_of_int8_sign (d : DirectionSign) :
  number_of_Z (to_int8 (sign_value d)) = sign_number d.
Proof. destruct d; reflexivity. Qed.

Lemma sign_number_cases (d : DirectionSign) :
  (sign_number d = 1%float /\ (- sign_number d)%float = (-1)%float) \/
  (sign_number d = (-1)%float /\ (- sign_number d)%float = 1%float).
Proof. destruct d; [left|right]; split; reflexivity. Qed.

End HostFacts.

(* ------------------------------------------------------------------ *)
(** ** The derived comparator as a walk over the step list *)

Section Walk.
Context {U : Unknown}.

(** The loop of [compare] as a recursion on the steps. *)
Definition outcome {T : Type} (steps : list (OrderStep.t T)) (a b : T)
  : option float :=
  for_rounds (fun s => Order.compare_step s a b) steps.

Definition result (v : option float) : float :=
  match v with Some r => r | None => 0%float end.

(** Exactly -1, 0 or 1. *)
Definition unit_sign (r : float) : Prop :=
  r = (-1)%float \/ r = 0%float \/ r = 1%float.

Lemma compare_outcome {T : Type} (o : Order.t T) (a b : T) :
  Order.compare o a b = result (outcome (Order._steps o) a b).
Proof.
  unfold Order.compare, for_return, outcome, result.
  destruct (Order._steps o) as [|s l] eqn:E; [reflexivity|].
  change (length (s :: l) =? 0)%nat with false. cbv iota beta.
  now rewrite (for_rounds_nth_error (fun s => Order.compare_step s a b)).
Qed.

Lemma outcome_cons {T : Type} (s : OrderStep.t T) rest (a b : T) :
  outcome (s :: rest) a b =
  match Order.compare_step s a b with
  | Some r => Some r
  | None => outcome rest a b
  end.
Proof. reflexivity. Qed.

Lemma outcome_app {T : Type} (l1 l2 : list (OrderStep.t T)) (a b : T) :
  outcome (l1 ++ l2) a b =
  match outcome l1 a b with
  | Some r => Some r
  | None => outcome l2 a b
  end.
Proof. apply for_rounds_app. Qed.

Lemma compare_keys_sign c (d : DirectionSign) (x y : unknown) (r : float) :
  compare_keys c (sign_number d) x y = Some r ->
  r = (-1)%float \/ r = 1%float.
Proof.
  unfold compare_keys.
  destruct (sign_number_cases d) as [[E1 E2]|[E1 E2]]; rewrite E2, E1;
    destruct c as [c|].
  all: repeat match goal with
         | |- context [if ?b then _ else _] => destruct b
         end; intros H; inversion H; auto.
Qed.

Lemma compare_step_sign {T : Type} (s : OrderStep.t T) (a b : T) (r : float) :
  Order.compare_step s a b = Some r -> r = (-1)%float \/ r = 1%float.
Proof.
  unfold Order.compare_step.
  destruct (match OrderStep.predicate s with
            | Some p => negb (p a) || negb (p b)
            | None => false
            end); [discriminate|].
  apply compare_keys_sign.
Qed.

Lemma outcome_sign {T : Type} (steps : list (OrderStep.t T)) (a b : T) r :
  outcome steps a b = Some r -> r = (-1)%float \/ r = 1%float.
Proof.
  induction steps as [|s rest IH]; [discriminate|].
  rewrite outcome_cons.
  destruct (Order.compare_step s a b) eqn:E; [|exact IH].
  intros H; inversion H; subst. eapply compare_step_sign; eassumption.
Qed.

Lemma outcome_nonzero {T : Type} (steps : list (OrderStep.t T)) (a b : T) :
  nonzero (result (outcome steps a b)) =
  match outcome steps a b with Some _ => true | None => false end.
Proof.
  destruct (outcome steps a b) as [r|] eqn:E; [|reflexivity].
  destruct (outcome_sign _ _ _ _ E); subst; reflexivity.
Qed.

End Walk.

(* ------------------------------------------------------------------ *)
(** ** The step walk of the specification (section 4.2) *)

Section StepWalk.
Context {U : Unknown} {T : Type}.

(** Rule 2a: a step applies when it has no predicate, or when its predicate
    is satisfied by both arguments. *)
Definition satisfied_by_both (s : OrderStep.t T) (a b : T) : bool :=
  match OrderStep.predicate s with
  | Some p => p a && p b
  | None => true
  end.

(** Rules 2a-2e for one step: [Some r] when the step returns [r], [None]
    when the walk goes on to the next step. *)
Inductive step_verdict (s : OrderStep.t T) (a b : T) : option float -> Prop :=
| verdict_skipped :
    satisfied_by_both s a b = false ->
    step_verdict s a b None
| verdict_custom (c : unknown -> unknown -> float) :
    satisfied_by_both s a b = true ->
    OrderStep.compare s = Some c ->
    nonzero (c (OrderStep.key s a) (OrderStep.key s b)) = true ->
    step_verdict s a b
      (Some (if gt_zero (c (OrderStep.key s a) (OrderStep.key s b))
             then sign_number (OrderStep.direction s)
             else (- sign_number (OrderStep.direction s))%float))
| verdict_custom_tied (c : unknown -> unknown -> float) :
    satisfied_by_both s a b = true ->
    OrderStep.compare s = Some c ->
    nonzero (c (OrderStep.key s a) (OrderStep.key s b)) = false ->
    step_verdict s a b None
| verdict_less :
    satisfied_by_both s a b = true ->
    OrderStep.compare s = None ->
    lt (OrderStep.key s a) (OrderStep.key s b) = true ->
    step_verdict s a b (Some (- sign_number (OrderStep.direction s))%float)
| verdict_greater :
    satisfied_by_both s a b = true ->
    OrderStep.compare s = None ->
    gt (OrderStep.key s a) (OrderStep.key s b) = true ->
    step_verdict s a b (Some (sign_number (OrderStep.direction s)))
| verdict_tied :
    satisfied_by_both s a b = true ->
    OrderStep.compare s = None ->
    lt (OrderStep.key s a) (OrderStep.key s b) = false ->
    gt (OrderStep.key s a) (OrderStep.key s b) = false ->
    step_verdict s a b None.

(** Rules 1, 2 and 3: the walk over the steps in order. *)
Inductive StepWalk (a b : T) : list (OrderStep.t T) -> float -> Prop :=
| walk_end : StepWalk a b [] 0%float
| walk_return s rest r :
    step_verdict s a b (Some r) -> StepWalk a b (s :: rest) r
| walk_next s rest r :
    step_verdict s a b None -> StepWalk a b rest r ->
    StepWalk a b (s :: rest) r.

Lemma compare_step_skip (s : OrderStep.t T) (a b : T) :
  Order.compare_step s a b =
  if satisfied_by_both s a b
  then compare_keys (OrderStep.compare s)
         (sign_number (OrderStep.direction s))
         (OrderStep.key s a) (OrderStep.key s b)
  else None.
Proof.
  unfold Order.compare_step, satisfied_by_both.
  destruct (OrderStep.predicate s) as [p|]; [|reflexivity].
  destruct (p a), (p b); reflexivity.
Qed.

Lemma step_verdict_sound (s : OrderStep.t T) (a b : T) v :
  step_verdict s a b v -> Order.compare_step s a b = v.
Proof.
  intros H; rewrite compare_step_skip; unfold compare_keys;
    destruct H as [Hs|c Hs Hc Hn|c Hs Hc Hn|Hs Hc Hl|Hs Hc Hg|Hs Hc Hl Hg];
    rewrite Hs; try rewrite Hc; try rewrite Hn; try rewrite Hl;
    try reflexivity.
  - unfold gt in Hg. rewrite (lt_asym _ _ Hg). unfold gt. now rewrite Hg.
  - now rewrite Hg.
Qed.

Lemma step_verdict_complete (s : OrderStep.t T) (a b : T) :
  step_verdict s a b (Order.compare_step s a b).
Proof.
  rewrite compare_step_skip.
  destruct (satisfied_by_both s a b) eqn:Hs; [|now apply verdict_skipped].
  unfold compare_keys. destruct (OrderStep.compare s) as [c|] eqn:Hc.
  - destruct (nonzero _) eqn:Hn.
    + now apply verdict_custom.
    + now apply verdict_custom_tied with c.
  - destruct (lt _ _) eqn:Hl; [now apply verdict_less|].
    destruct (gt _ _) eqn:Hg; [now apply verdict_greater|].
    now apply verdict_tied.
Qed.

Lemma walk_outcome (a b : T) (steps : list (OrderStep.t T)) :
  StepWalk a b steps (result (outcome steps a b)).
Proof.
  induction steps as [|s rest IH]; [apply walk_end|].
  rewrite outcome_cons.
  pose proof (step_verdict_complete s a b) as Hv.
  destruct (Order.compare_step s a b) as [r|].
  - now apply walk_return.
  - now apply walk_next.
Qed.

Lemma walk_functional (a b : T) (steps : list (OrderStep.t T)) (r : float) :
  StepWalk a b steps r -> r = result (outcome steps a b).
Proof.
  induction 1 as [|s rest r Hv|s rest r Hv Hw IH].
  - reflexivity.
  - rewrite outcome_cons, (step_verdict_sound _ _ _ _ Hv). reflexivity.
  - rewrite outcome_cons, (step_verdict_sound _ _ _ _ Hv). exact IH.
Qed.

(** C2. The derived comparator is the step walk of section 4.2: [compare]
    returns [r] on [(a, b)] exactly when the walk over the steps does. With
    no step the walk ends at once with 0; a step whose predicate is not
    satisfied by both arguments is skipped; a custom comparator with a
    non-zero answer [r] gives the direction when [r > 0] and its opposite
    otherwise; the default comparison gives minus the direction on [<] and
    the direction on [>]; when every step ties the result is 0. *)
Theorem compare_is_step_walk (o : Order.t T) (a b : T) (r : float) :
  Order.compare o a b = r <-> StepWalk a b (Order._steps o) r.
Proof.
  rewrite compare_outcome. split.
  - intros <-. apply walk_outcome.
  - intros H. symmetry. now apply walk_functional.
Qed.

End StepWalk.

(* ------------------------------------------------------------------ *)
(** ** Composition: [reverse], [when], [map] *)

Section Composition.
Context {U : Unknown}.

Definition flip (d : DirectionSign) : DirectionSign :=
  match d with Plus1 => Minus1 | Minus1 => Plus1 end.

Lemma steps_reverse {T : Type} (o : Order.t T) :
  Order._steps (Order.reverse o) =
  List.map
    (fun s => OrderStep.mk (OrderStep.key s) (flip (OrderStep.direction s))
                (OrderStep.compare s) (OrderStep.predicate s))
    (Order._steps o).
Proof.
  unfold Order.reverse. destruct (Order._steps o); reflexivity.
Qed.

Lemma reverse_reverse {T : Type} (o : Order.t T) :
  Order.reverse (Order.reverse o) = o.
Proof.
  destruct o as [steps].
  assert (E : Order._steps (Order.reverse (Order.reverse (Order.mk steps)))
              = steps).
  { rewrite !steps_reverse, map_map. simpl.
    induction steps as [|[k d c p] rest IH]; simpl; [reflexivity|].
    rewrite IH. now destruct d. }
  destruct (Order.reverse (Order.reverse (Order.mk steps))).
  simpl in E. now subst.
Qed.

(** C6. Reversing twice gives back the comparator; [reverse] keeps the
    number of steps and, step by step, the key, the comparator and the
    predicate, and negates the direction sign; the reverse of an Order
    without steps has no steps. *)
Theorem reverse_involution {T : Type} (o : Order.t T) :
  (forall a b : T,
     Order.compare (Order.reverse (Order.reverse o)) a b =
     Order.compare o a b) /\
  length (Order._steps (Order.reverse o)) = length (Order._steps o) /\
  (forall i s,
     nth_error (Order._steps o) i = Some s ->
     exists s',
       nth_error (Order._steps (Order.reverse o)) i = Some s' /\
       OrderStep.key s' = OrderStep.key s /\
       OrderStep.compare s' = OrderStep.compare s /\
       OrderStep.predicate s' = OrderStep.predicate s /\
       sign_value (OrderStep.direction s') =
       (- sign_value (OrderStep.direction s))%Z) /\
  (Order._steps o = [] -> Order._steps (Order.reverse o) = []).
Proof.
  repeat split.
  - intros a b. now rewrite reverse_reverse.
  - now rewrite steps_reverse, length_map.
  - intros i s H. rewrite steps_reverse, nth_error_map, H. simpl.
    eexists; repeat split; simpl; now destruct (OrderStep.direction s).
  - intros H. now rewrite steps_reverse, H.
Qed.

(** The predicate of a guarded step. *)
Definition holds {T : Type} (p : option (T -> bool)) (v : T) : bool :=
  match p with Some p => p v | None => true end.

Lemma steps_when {T : Type} (predicate : T -> bool) (inner : Order.t T) :
  Order._steps (Order.when predicate inner) =
  List.map
    (fun step =>
       OrderStep.mk (OrderStep.key step) (OrderStep.direction step)
         (OrderStep.compare step)
         (match OrderStep.predicate step with
          | Some p => Some (fun value : T => p value && predicate value)
          | None => Some predicate
          end))
    (Order._steps inner).
Proof.
  unfold Order.when. destruct (Order._steps inner); reflexivity.
Qed.

Lemma when_outcome_none {T : Type} (predicate : T -> bool)
    (inner : Order.t T) (a b : T) :
  predicate a = false \/ predicate b = false ->
  outcome (Order._steps (Order.when predicate inner)) a b = None.
Proof.
  intros H. rewrite steps_when. unfold outcome. rewrite for_rounds_map.
  induction (Order._steps inner) as [|s rest IH]; simpl; [reflexivity|].
  rewrite IH. unfold Order.compare_step. simpl.
  destruct (OrderStep.predicate s) as [p|].
  - destruct H as [H|H]; rewrite H, andb_false_r; simpl;
      rewrite ?orb_true_r; reflexivity.
  - destruct H as [H|H]; rewrite H; simpl; rewrite ?orb_true_r; reflexivity.
Qed.

(** C7. [Order.when(pred, inner)] keeps the steps of [inner] one for one,
    each with its key, direction and comparator, and with a predicate that
    is the conjunction of the step's own predicate (true when absent) and
    [pred]; hence on a pair of which one element fails [pred] the guarded
    comparator returns 0, whatever [inner] is, in particular for
    [Order.by(key)]; with an [inner] without steps the result has none; and
    the instance form puts the guarded steps after the receiver's. *)
Theorem when_guard_conjunction {T : Type} (pred : T -> bool)
    (inner : Order.t T) :
  length (Order._steps (Order.when pred inner)) =
    length (Order._steps inner) /\
  (forall i s,
     nth_error (Order._steps inner) i = Some s ->
     exists s' p',
       nth_error (Order._steps (Order.when pred inner)) i = Some s' /\
       OrderStep.key s' = OrderStep.key s /\
       OrderStep.direction s' = OrderStep.direction s /\
       OrderStep.compare s' = OrderStep.compare s /\
       OrderStep.predicate s' = Some p' /\
       forall v, p' v = holds (OrderStep.predicate s) v && pred v) /\
  (forall a b : T,
     pred a = false \/ pred b = false ->
     Order.compare (Order.when pred inner) a b = 0%float /\
     forall key options,
       Order.compare (Order.when pred (Order.by_ key options)) a b
       = 0%float) /\
  (Order._steps inner = [] -> Order._steps (Order.when pred inner) = []) /\
  (forall this : Order.t T,
     Order._steps (Order.then_when this pred inner) =
     Order._steps this ++ Order._steps (Order.when pred inner)).
Proof.
  repeat split.
  - now rewrite steps_when, length_map.
  - intros i s Hs. rewrite steps_when, nth_error_map, Hs. simpl.
    destruct (OrderStep.predicate s) as [p|] eqn:Hp.
    + eexists _, _; repeat split; try now rewrite Hp.
    + eexists _, _; repeat split; try now rewrite Hp.
  - now rewrite compare_outcome, when_outcome_none.
  - intros key options. now rewrite compare_outcome, when_outcome_none.
  - intros E. now rewrite steps_when, E.
  - intros this. unfold Order.then_when.
    destruct (Order._steps this) as [|s l] eqn:E; [reflexivity|].
    change (length (s :: l) =? 0)%nat with false. cbv iota.
    destruct (Order._steps (Order.when pred inner)) as [|g gs] eqn:G.
    + simpl. rewrite E. simpl. now rewrite app_nil_r.
    + reflexivity.
Qed.

Lemma steps_map {T K : Type} (outer : T -> K) (sub : Order.t K) :
  Order._steps (Order.map outer sub) =
  List.map
    (fun s =>
       OrderStep.mk (fun t0 : T => OrderStep.key s (outer t0))
         (OrderStep.direction s) (OrderStep.compare s)
         (match OrderStep.predicate s with
          | Some p => Some (fun t0 : T => p (outer t0))
          | None => None
          end))
    (Order._steps sub).
Proof.
  unfold Order.map. destruct (Order._steps sub); reflexivity.
Qed.

Lemma map_outcome {T K : Type} (outer : T -> K) (sub : Order.t K) (a b : T) :
  outcome (Order._steps (Order.map outer sub)) a b =
  outcome (Order._steps sub) (outer a) (outer b).
Proof.
  rewrite steps_map. unfold outcome. rewrite for_rounds_map.
  apply for_rounds_ext. intros s _. unfold Order.compare_step. simpl.
  now destruct (OrderStep.predicate s).
Qed.

Lemma steps_then_map {T K : Type} (this : Order.t T) (outer : T -> K)
    (sub : Order.t K) :
  Order._steps (Order.then_map this outer sub) =
  Order._steps this ++ Order._steps (Order.map outer sub).
Proof.
  unfold Order.then_map.
  destruct (Order._steps this) as [|s l] eqn:E; reflexivity.
Qed.

(** C8. [Order.map(outer, sub)] keeps the steps of [sub] one for one: the
    key of a lifted step is the sub-step's key after [outer], its predicate
    (when the sub-step has one, and only then) is the sub-step's predicate
    after [outer], its direction and comparator are the sub-step's. Hence
    the lifted comparator on [(a, b)] is the sub-comparator on
    [(outer a, outer b)]. The instance form holds the receiver's steps and
    then the lifted ones, so it returns the receiver's verdict when that is
    not 0 and the lifted comparator's otherwise. *)
Theorem map_lifts_sub_order {T K : Type} (outer : T -> K) (sub : Order.t K) :
  length (Order._steps (Order.map outer sub)) = length (Order._steps sub) /\
  (forall i s,
     nth_error (Order._steps sub) i = Some s ->
     exists s',
       nth_error (Order._steps (Order.map outer sub)) i = Some s' /\
       (forall t0, OrderStep.key s' t0 = OrderStep.key s (outer t0)) /\
       OrderStep.direction s' = OrderStep.direction s /\
       OrderStep.compare s' = OrderStep.compare s /\
       match OrderStep.predicate s, OrderStep.predicate s' with
       | Some p, Some p' => forall t0, p' t0 = p (outer t0)
       | None, None => True
       | _, _ => False
       end) /\
  (forall a b : T,
     Order.compare (Order.map outer sub) a b =
     Order.compare sub (outer a) (outer b)) /\
  (forall (this : Order.t T) (a b : T),
     Order._steps (Order.then_map this outer sub) =
       Order._steps this ++ Order._steps (Order.map outer sub) /\
     Order.compare (Order.then_map this outer sub) a b =
       if nonzero (Order.compare this a b)
       then Order.compare this a b
       else Order.compare sub (outer a) (outer b)).
Proof.
  repeat split.
  - now rewrite steps_map, length_map.
  - intros i s Hs. rewrite steps_map, nth_error_map, Hs. simpl.
    eexists; repeat split; simpl; now destruct (OrderStep.predicate s).
  - intros a b. now rewrite !compare_outcome, map_outcome.
  - apply steps_then_map.
  - rewrite !compare_outcome, steps_then_map, outcome_app, map_outcome.
    rewrite outcome_nonzero.
    now destruct (outcome (Order._steps this) a b).
Qed.

End Composition.

(* ------------------------------------------------------------------ *)
(** ** Symmetry of the derived comparator *)

Section Symmetry.
Context {U : Unknown} {T : Type}.

(** No predicate of the Order tells [a] from [b]. *)
Definition predicates_agree (o : Order.t T) (a b : T) : Prop :=
  forall s p,
    In s (Order._steps o) -> OrderStep.predicate s = Some p -> p a = p b.

(** Two answers of a comparator that are both zero, or one above zero and the
    other not (and neither of them zero). *)
Definition opposite_answers (r r' : float) : Prop :=
  nonzero r' = nonzero r /\
  (nonzero r = true -> gt_zero r' = negb (gt_zero r)).

(** Every custom comparator of the Order gives opposite answers on the keys
    of [a] and [b] taken in the two orders. *)
Definition comparators_antisymmetric (o : Order.t T) (a b : T) : Prop :=
  forall s c,
    In s (Order._steps o) -> OrderStep.compare s = Some c ->
    opposite_answers (c (OrderStep.key s a) (OrderStep.key s b))
                     (c (OrderStep.key s b) (OrderStep.key s a)).

(** Every custom comparator of the Order answers zero on the key of [a]
    against itself. *)
Definition comparators_reflexive (o : Order.t T) (a : T) : Prop :=
  forall s c,
    In s (Order._steps o) -> OrderStep.compare s = Some c ->
    nonzero (c (OrderStep.key s a) (OrderStep.key s a)) = false.

Definition mirrored (v v' : option float) : Prop :=
  (v = None /\ v' = None) \/
  (v = Some 1%float /\ v' = Some (-1)%float) \/
  (v = Some (-1)%float /\ v' = Some 1%float).

Lemma lt_irrefl (x : unknown) : lt x x = false.
Proof.
  destruct (lt x x) eqn:E; [|reflexivity].
  now rewrite (lt_asym _ _ E) in E.
Qed.

Lemma compare_keys_mirrored c (d : DirectionSign) (x y : unknown) :
  (forall c', c = Some c' -> opposite_answers (c' x y) (c' y x)) ->
  mirrored (compare_keys c (sign_number d) x y)
           (compare_keys c (sign_number d) y x).
Proof.
  intros H. unfold compare_keys, mirrored.
  destruct c as [c|].
  - destruct (H c eq_refl) as [Hn Hp]. rewrite Hn.
    destruct (nonzero (c x y)); [|now left].
    rewrite (Hp eq_refl).
    destruct (sign_number_cases d) as [[E1 E2]|[E1 E2]]; rewrite E2, E1;
      destruct (gt_zero (c x y)); simpl; auto.
  - unfold gt.
    destruct (lt x y) eqn:Hxy.
    + rewrite (lt_asym _ _ Hxy).
      destruct (sign_number_cases d) as [[E1 E2]|[E1 E2]]; rewrite E2, E1;
        auto.
    + destruct (lt y x) eqn:Hyx; [|now left].
      destruct (sign_number_cases d) as [[E1 E2]|[E1 E2]]; rewrite E2, E1;
        auto.
Qed.

Lemma outcome_mirrored (steps : list (OrderStep.t T)) (a b : T) :
  (forall s p, In s steps -> OrderStep.predicate s = Some p -> p a = p b) ->
  (forall s c, In s steps -> OrderStep.compare s = Some c ->
     opposite_answers (c (OrderStep.key s a) (OrderStep.key s b))
                      (c (OrderStep.key s b) (OrderStep.key s a))) ->
  mirrored (outcome steps a b) (outcome steps b a).
Proof.
  induction steps as [|s rest IH]; intros Hp Hc; [now left|].
  rewrite !outcome_cons, !compare_step_skip.
  assert (Hs : satisfied_by_both s b a = satisfied_by_both s a b).
  { unfold satisfied_by_both.
    destruct (OrderStep.predicate s) as [p|] eqn:E; [|reflexivity].
    rewrite (Hp s p (or_introl eq_refl) E). apply andb_comm. }
  rewrite Hs.
  assert (IH' : mirrored (outcome rest a b) (outcome rest b a)).
  { apply IH; intros; [eapply Hp|eapply Hc]; simpl; eauto. }
  destruct (satisfied_by_both s a b); [|exact IH'].
  destruct (compare_keys_mirrored (OrderStep.compare s)
              (OrderStep.direction s) (OrderStep.key s a) (OrderStep.key s b))
    as [[E1 E2]|[[E1 E2]|[E1 E2]]].
  - intros c' E. apply (Hc s c' (or_introl eq_refl) E).
  - rewrite E1, E2. exact IH'.
  - rewrite E1, E2. right; left; auto.
  - rewrite E1, E2. right; right; auto.
Qed.

Lemma outcome_reflexive (steps : list (OrderStep.t T)) (a : T) :
  (forall s c, In s steps -> OrderStep.compare s = Some c ->
     nonzero (c (OrderStep.key s a) (OrderStep.key s a)) = false) ->
  outcome steps a a = None.
Proof.
  induction steps as [|s rest IH]; intros Hc; [reflexivity|].
  rewrite outcome_cons, compare_step_skip, IH
    by (intros; eapply Hc; simpl; eauto).
  destruct (satisfied_by_both s a a); [|reflexivity].
  unfold compare_keys.
  destruct (OrderStep.compare s) as [c|] eqn:E.
  - now rewrite (Hc s c (or_introl eq_refl) E).
  - unfold gt. now rewrite lt_irrefl.
Qed.

(** C5 (amended). For a pair [(a, b)] that no predicate of the Order tells
    apart and on whose keys every custom comparator of the Order gives
    opposite answers in the two orders, [compare(a, b) == -compare(b, a)];
    and [compare(a, a)] is 0 whenever every custom comparator of the Order
    answers zero on the key of [a] against itself (always, for an Order
    with default comparisons only). *)
Theorem compare_antisymmetric_reflexive (o : Order.t T) :
  (forall a b : T,
     predicates_agree o a b ->
     comparators_antisymmetric o a b ->
     (Order.compare o a b =? - Order.compare o b a)%float = true) /\
  (forall a : T,
     comparators_reflexive o a -> Order.compare o a a = 0%float).
Proof.
  split.
  - intros a b Hp Hc. rewrite !compare_outcome.
    destruct (outcome_mirrored (Order._steps o) a b Hp Hc)
      as [[E1 E2]|[[E1 E2]|[E1 E2]]]; rewrite E1, E2; reflexivity.
  - intros a Hc. now rewrite compare_outcome, outcome_reflexive.
Qed.

End Symmetry.

(* ------------------------------------------------------------------ *)
(** ** What [Order.sort] computes *)

Section SortFacts.
Context {U : Unknown} {HS : HostSort} {T : Type}.

(** The key buffer and the match buffer of a step, as values. *)
Definition step_keys (step : OrderStep.t T) (items : list T) : list unknown :=
  List.map
    (fun item =>
       match OrderStep.predicate step with
       | Some p => if p item then OrderStep.key step item else undefined
       | None => OrderStep.key step item
       end)
    items.

Definition step_matches (step : OrderStep.t T) (items : list T)
  : option (list bool) :=
  match OrderStep.predicate step with
  | Some p => Some (List.map p items)
  | None => None
  end.

(** The key calls of step [j] on the elements accepted by [p], the first
    element having index [i]. *)
Fixpoint guarded_calls (j : nat) (p : T -> bool) (i : nat) (items : list T)
  : list Store.key_call :=
  match items with
  | [] => []
  | item :: rest =>
      (if p item then [(j, i)] else []) ++ guarded_calls j p (S i) rest
  end.

Definition step_calls (j : nat) (step : OrderStep.t T) (items : list T)
  : list Store.key_call :=
  match OrderStep.predicate step with
  | Some p => guarded_calls j p 0 items
  | None => guarded_calls j (fun _ => true) 0 items
  end.

Fixpoint decorate_calls (j : nat) (steps : list (OrderStep.t T))
    (items : list T) : list Store.key_call :=
  match steps with
  | [] => []
  | step :: rest => step_calls j step items ++ decorate_calls (S j) rest items
  end.

Definition logged (w : Store.world (T:=T)) (calls : list Store.key_call)
  : Store.world (T:=T) :=
  Store.mkWorld (Store.arrays w) (Store.key_calls w ++ calls).

Lemma logged_logged w c1 c2 : logged (logged w c1) c2 = logged w (c1 ++ c2).
Proof. unfold logged; simpl. now rewrite app_assoc. Qed.

Lemma logged_nil w : logged w [] = w.
Proof. destruct w; unfold logged; simpl. now rewrite app_nil_r. Qed.

Lemma decorate_guarded_run j step p i items w :
  Order.decorate_guarded j step p i items w =
  ((List.map
      (fun item => if p item then OrderStep.key step item else undefined)
      items,
    List.map p items),
   logged w (guarded_calls j p i items)).
Proof.
  revert i w. induction items as [|item rest IH]; intros i w; simpl.
  - now rewrite logged_nil.
  - unfold Store.bind at 1.
    destruct (p item); simpl.
    + unfold Order.call_key, Store.bind, Store.log_key_call, Store.ret.
      fold (logged w [(j, i)]).
      rewrite IH, logged_logged. reflexivity.
    + unfold Store.ret at 1. unfold Store.bind.
      rewrite IH. reflexivity.
Qed.

Lemma decorate_all_run j step i items w :
  Order.decorate_all j step i items w =
  (List.map (OrderStep.key step) items,
   logged w (guarded_calls j (fun _ => true) i items)).
Proof.
  revert i w. induction items as [|item rest IH]; intros i w; simpl.
  - now rewrite logged_nil.
  - unfold Store.bind, Order.call_key, Store.bind, Store.log_key_call,
      Store.ret.
    fold (logged w [(j, i)]).
    rewrite IH, logged_logged. reflexivity.
Qed.

Lemma decorate_run j steps items w :
  Order.decorate j steps items w =
  ((List.map (fun s => step_keys s items) steps,
    List.map (fun s => step_matches s items) steps),
   logged w (decorate_calls j steps items)).
Proof.
  revert j w. induction steps as [|s rest IH]; intros j w; simpl.
  - now rewrite logged_nil.
  - unfold step_keys, step_matches, step_calls.
    destruct (OrderStep.predicate s) as [p|]; unfold Store.bind.
    + rewrite decorate_guarded_run, IH, logged_logged. reflexivity.
    + rewrite decorate_all_run, IH, logged_logged. reflexivity.
Qed.

(** The sorted indexes, the elements of the result and the key calls. *)
Definition sort_indexes (elements : list T) (steps : list (OrderStep.t T))
  : list nat :=
  Array_sort
    (Order.index_compare (length steps)
       (List.map (fun s => step_keys s elements) steps)
       (List.map (fun s => step_matches s elements) steps)
       (List.map (fun s => to_int8 (sign_value (OrderStep.direction s))) steps)
       (List.map (fun s => OrderStep.compare s) steps))
    (seq 0 (length elements)).

Definition short_circuit (elements : list T) (order : Order.t T) : bool :=
  (length elements <=? 1)%nat || (length (Order._steps order) =? 0)%nat.

Definition sort_result (elements : list T) (order : Order.t T) : list T :=
  if short_circuit elements order then elements
  else Order.materialize elements (sort_indexes elements (Order._steps order)).

Definition sort_calls (elements : list T) (order : Order.t T)
  : list Store.key_call :=
  if short_circuit elements order then []
  else decorate_calls 0 (Order._steps order) elements.

Lemma sort_run (array : Store.ref) (order : Order.t T) w :
  Order.sort array order w =
  (length (Store.arrays w),
   Store.mkWorld
     (Store.arrays w ++ [sort_result (Store.contents array w) order])
     (Store.key_calls w ++ sort_calls (Store.contents array w) order)).
Proof.
  unfold Order.sort, sort_result, sort_calls, short_circuit.
  unfold Store.bind at 1. unfold Store.read at 1.
  destruct (length (Store.contents array w) <=? 1)%nat; simpl.
  - unfold Store.slice, Store.bind, Store.read, Store.new_array.
    now rewrite app_nil_r.
  - destruct (length (Order._steps order) =? 0)%nat; simpl.
    + unfold Store.slice, Store.bind, Store.read, Store.new_array.
      now rewrite app_nil_r.
    + unfold Store.bind. rewrite decorate_run.
      unfold Store.new_array, logged, sort_indexes. reflexivity.
Qed.

End SortFacts.

(* ------------------------------------------------------------------ *)
(** ** The index comparator replays the derived comparator *)

Section IndexComparator.
Context {U : Unknown} {T : Type}.

Lemma nth_map_at {A B : Type} (f : A -> B) (l : list A) (i : nat) (x : A)
    (d : B) :
  nth_error l i = Some x -> nth i (List.map f l) d = f x.
Proof.
  intros H. apply nth_error_nth. now rewrite nth_error_map, H.
Qed.

Lemma for_rounds_Some {I R : Type} (f : I -> option R) (l : list I) (r : R) :
  for_rounds f l = Some r -> exists i, In i l /\ f i = Some r.
Proof.
  induction l as [|i l IH]; simpl; [discriminate|].
  destruct (f i) eqn:E.
  - intros H; inversion H; subst. exists i; auto.
  - intros H. destruct (IH H) as [k [Hk Hf]]. exists k; auto.
Qed.

Lemma index_compare_step_replays (steps : list (OrderStep.t T))
    (elements : list T) (j ia ib : nat) s a b :
  nth_error steps j = Some s ->
  nth_error elements ia = Some a ->
  nth_error elements ib = Some b ->
  Order.index_compare_step
    (List.map (fun s => step_keys s elements) steps)
    (List.map (fun s => step_matches s elements) steps)
    (List.map (fun s => to_int8 (sign_value (OrderStep.direction s))) steps)
    (List.map (fun s => OrderStep.compare s) steps)
    ia ib j =
  Order.compare_step s a b.
Proof.
  intros Hs Ha Hb. unfold Order.index_compare_step, Order.compare_step.
  rewrite (nth_map_at (fun s => step_keys s elements) _ _ _ [] Hs),
    (nth_map_at (fun s => step_matches s elements) _ _ _ None Hs),
    (nth_map_at
       (fun s => to_int8 (sign_value (OrderStep.direction s))) _ _ _ 0%Z Hs),
    (nth_map_at (fun s => OrderStep.compare s) _ _ _ None Hs),
    number_of_int8_sign.
  unfold step_matches, step_keys.
  destruct (OrderStep.predicate s) as [p|].
  - rewrite (nth_map_at p _ _ _ false Ha), (nth_map_at p _ _ _ false Hb).
    rewrite (nth_map_at
               (fun item =>
                  if p item then OrderStep.key s item else undefined)
               _ _ _ undefined Ha),
      (nth_map_at
         (fun item => if p item then OrderStep.key s item else undefined)
         _ _ _ undefined Hb).
    destruct (p a), (p b); reflexivity.
  - now rewrite
      (nth_map_at (fun item => OrderStep.key s item) _ _ _ undefined Ha),
      (nth_map_at (fun item => OrderStep.key s item) _ _ _ undefined Hb).
Qed.

Lemma index_compare_replays (order : Order.t T) (elements : list T)
    (ia ib : nat) a b :
  nth_error elements ia = Some a ->
  nth_error elements ib = Some b ->
  Order.index_compare (length (Order._steps order))
    (List.map (fun s => step_keys s elements) (Order._steps order))
    (List.map (fun s => step_matches s elements) (Order._steps order))
    (List.map (fun s => to_int8 (sign_value (OrderStep.direction s)))
       (Order._steps order))
    (List.map (fun s => OrderStep.compare s) (Order._steps order))
    ia ib =
  Order.compare order a b.
Proof.
  intros Ha Hb. rewrite compare_outcome.
  unfold Order.index_compare, for_return, result, outcome.
  rewrite <- (for_rounds_nth_error (fun s => Order.compare_step s a b)).
  match goal with
  | |- match for_rounds ?f ?l with _ => _ end =
       match for_rounds ?g _ with _ => _ end =>
      rewrite (for_rounds_ext f g l); [reflexivity|]
  end.
  intros j Hj. apply in_seq in Hj.
  destruct (nth_error (Order._steps order) j) as [s|] eqn:Hs.
  - now apply index_compare_step_replays.
  - apply nth_error_None in Hs. lia.
Qed.

(** The index comparator answers -1, 0 or 1 whatever the buffers hold. *)
Lemma index_compare_sign (steps : list (OrderStep.t T)) keysPerStep
    predicateMatchesPerStep cmps (ia ib : nat) :
  unit_sign
    (Order.index_compare (length steps) keysPerStep predicateMatchesPerStep
       (List.map (fun s => to_int8 (sign_value (OrderStep.direction s)))
          steps)
       cmps ia ib).
Proof.
  unfold Order.index_compare, for_return, unit_sign.
  destruct (for_rounds _ _) as [r|] eqn:E; [|auto].
  apply for_rounds_Some in E. destruct E as [j [Hj E]].
  apply in_seq in Hj.
  destruct (nth_error steps j) as [s|] eqn:Hs;
    [|apply nth_error_None in Hs; lia].
  unfold Order.index_compare_step in E.
  rewrite (nth_map_at
             (fun s => to_int8 (sign_value (OrderStep.direction s)))
             _ _ _ 0%Z Hs),
    number_of_int8_sign in E.
  destruct (match nth j predicateMatchesPerStep None with
            | Some matches =>
                negb (nth ia matches false) || negb (nth ib matches false)
            | None => false
            end); [discriminate|].
  apply compare_keys_sign in E. tauto.
Qed.

End IndexComparator.

(* ------------------------------------------------------------------ *)
(** ** [Order.sort] against the host's sort with the derived comparator *)

Section SortEquivalence.
Context {U : Unknown} {HS : HostSort} {T : Type} {E : Element T}.

(** No element is the value [undefined]. *)
Definition all_defined (elements : list T) : Prop :=
  forall x, In x elements -> is_undefined x = false.

(** A comparison of elements, on the results of reading an array. *)
Definition on_reads (sc : T -> T -> float) (x y : option T) : float :=
  match x, y with
  | Some a, Some b => sc a b
  | _, _ => 0%float
  end.

Lemma reads_of_all_indexes (elements : list T) :
  List.map (nth_error elements) (seq 0 (length elements)) =
  List.map Some elements.
Proof.
  induction elements as [|x l IH]; simpl; [reflexivity|].
  f_equal. rewrite <- seq_shift, map_map. exact IH.
Qed.

Lemma materialize_in_range (elements : list T) (indexes : list nat) :
  (forall i, In i indexes -> i < length elements) ->
  List.map Some (Order.materialize elements indexes) =
  List.map (nth_error elements) indexes.
Proof.
  unfold Order.materialize.
  induction indexes as [|i l IH]; simpl; intros H; [reflexivity|].
  destruct (nth_error elements i) eqn:Hi.
  - simpl. f_equal. apply IH. intros; apply H; now right.
  - apply nth_error_None in Hi. specialize (H i (or_introl eq_refl)). lia.
Qed.

Lemma sorted_indexes_in_range (elements : list T) steps (i : nat) :
  In i (sort_indexes elements steps) -> i < length elements.
Proof.
  unfold sort_indexes, Array_sort. intros H.
  apply (Permutation_in _ (host_sort_perm _ _ _)) in H.
  apply in_seq in H. lia.
Qed.

Lemma sorted_indexes_perm (elements : list T) steps :
  Permutation (sort_indexes elements steps) (seq 0 (length elements)).
Proof. apply host_sort_perm. Qed.

Lemma map_Some_inj (l1 l2 : list T) :
  List.map Some l1 = List.map Some l2 -> l1 = l2.
Proof.
  revert l2. induction l1 as [|x l1 IH]; intros [|y l2] H;
    simpl in H; try discriminate; [reflexivity|].
  inversion H. f_equal. now apply IH.
Qed.

Lemma SortCompare_defined (comparefn : T -> T -> float) (a b : T) :
  is_undefined a = false -> is_undefined b = false ->
  SortCompare comparefn a b =
  if PrimFloat.is_nan (comparefn a b) then 0%float else comparefn a b.
Proof. intros Ha Hb. unfold SortCompare. now rewrite Ha, Hb. Qed.

Lemma sort_result_host (elements : list T) (order : Order.t T) :
  all_defined elements ->
  sort_result elements order = Array_sort (Order.compare order) elements.
Proof.
  intros Hd. unfold sort_result, short_circuit.
  destruct (length elements <=? 1)%nat eqn:Hlen; simpl.
  { unfold Array_sort.
    pose proof (host_sort_perm T (SortCompare (Order.compare order))
                  elements) as Hp.
    apply Permutation_sym in Hp.
    destruct elements as [|x [|y l]]; simpl in Hlen; try discriminate.
    - now apply Permutation_nil in Hp.
    - now apply Permutation_length_1_inv in Hp. }
  destruct (length (Order._steps order) =? 0)%nat eqn:Hsteps.
  { unfold Array_sort. symmetry. apply host_sort_ties.
    intros x y Hx Hy. rewrite SortCompare_defined by auto.
    unfold Order.compare. rewrite Hsteps. reflexivity. }
  apply map_Some_inj.
  rewrite materialize_in_range by apply sorted_indexes_in_range.
  unfold sort_indexes, Array_sort.
  rewrite (host_sort_natural _ _ (nth_error elements) _
             (on_reads (SortCompare (Order.compare order)))).
  - rewrite reads_of_all_indexes. symmetry.
    now apply host_sort_natural.
  - intros i j Hi Hj. apply in_seq in Hi, Hj.
    destruct (nth_error elements i) as [a|] eqn:Ha;
      [|apply nth_error_None in Ha; lia].
    destruct (nth_error elements j) as [b|] eqn:Hb;
      [|apply nth_error_None in Hb; lia].
    simpl. rewrite SortCompare_defined
      by (apply Hd; eapply nth_error_In; eassumption).
    unfold SortCompare. simpl.
    now rewrite (index_compare_replays order elements i j a b Ha Hb).
Qed.

Lemma contents_of_new (arrays : list (list T)) (l : list T) calls :
  Store.contents (length arrays) (Store.mkWorld (arrays ++ [l]) calls) = l.
Proof. unfold Store.contents. simpl. apply nth_middle. Qed.

(** C1 (amended). For an array none of whose elements is [undefined], the
    array returned by [Order.sort] holds the same elements in the same order
    as a copy of the array sorted by the host's stable sort with the derived
    comparator, whatever the steps, comparators and predicates are, and
    whatever sorting procedure the host has. *)
Theorem sort_equals_host_sort (array : Store.ref) (order : Order.t T)
    (w : Store.world) :
  all_defined (Store.contents array w) ->
  Store.contents (fst (Order.sort array order w))
                 (snd (Order.sort array order w)) =
  Array_sort (Order.compare order) (Store.contents array w).
Proof.
  intros Hd. rewrite sort_run. simpl.
  rewrite contents_of_new. now apply sort_result_host.
Qed.

End SortEquivalence.

(* ------------------------------------------------------------------ *)
(** ** The input array is left alone; the key calls of a sort *)

Section SortEffects.
Context {U : Unknown} {HS : HostSort} {T : Type}.

(** C4. [Order.sort] leaves every array of the store, the input array
    among them, with the elements it had, in the order it had them; the
    array it returns is a new instance, distinct from the input array and
    from every array there was; and when the input has at most one element
    or the Order has no step, the new array is a copy of the input. *)
Theorem sort_never_mutates (array : Store.ref) (order : Order.t T)
    (w : Store.world (T:=T)) :
  array < length (Store.arrays w) ->
  let r := fst (Order.sort array order w) in
  let w' := snd (Order.sort array order w) in
  r <> array /\
  Store.contents array w' = Store.contents array w /\
  (forall r0, r0 < length (Store.arrays w) ->
     r0 <> r /\ Store.contents r0 w' = Store.contents r0 w) /\
  length (Store.arrays w') = S (length (Store.arrays w)) /\
  (length (Store.contents array w) <= 1 \/ Order._steps order = [] ->
   Store.contents r w' = Store.contents array w).
Proof.
  intros Hin. rewrite sort_run. simpl.
  assert (Hold : forall r0 l calls, r0 < length (Store.arrays w) ->
            Store.contents r0 (Store.mkWorld (Store.arrays w ++ [l]) calls)
            = Store.contents r0 w).
  { intros r0 l calls H0. unfold Store.contents. simpl.
    now rewrite app_nth1. }
  repeat split.
  - lia.
  - now apply Hold.
  - lia.
  - now apply Hold.
  - rewrite length_app. simpl. lia.
  - intros Hshort. rewrite contents_of_new.
    unfold sort_result, short_circuit.
    destruct Hshort as [Hlen|Hsteps].
    + apply Nat.leb_le in Hlen. now rewrite Hlen.
    + rewrite Hsteps. simpl. now rewrite orb_true_r.
Qed.

Lemma guarded_calls_length j (p : T -> bool) i items :
  length (guarded_calls j p i items) = length (filter p items).
Proof.
  revert i. induction items as [|x l IH]; intros i; simpl; [reflexivity|].
  rewrite length_app, IH. now destruct (p x).
Qed.

Lemma guarded_calls_In j (p : T -> bool) i items j' k :
  In (j', k) (guarded_calls j p i items) ->
  j' = j /\ i <= k /\
  exists x, nth_error items (k - i) = Some x /\ p x = true.
Proof.
  revert i. induction items as [|x l IH]; intros i; simpl; [tauto|].
  rewrite in_app_iff. intros [H|H].
  - destruct (p x) eqn:Hp; simpl in H; [|tauto].
    destruct H as [H|[]]. inversion H; subst.
    repeat split; [lia|]. exists x. now rewrite Nat.sub_diag.
  - destruct (IH _ H) as [Hj [Hk [y [Hy Hpy]]]].
    repeat split; [assumption|lia|]. exists y. split; [|assumption].
    replace (k - i) with (S (k - S i)) by lia. exact Hy.
Qed.

Lemma guarded_calls_NoDup j (p : T -> bool) i items :
  NoDup (guarded_calls j p i items).
Proof.
  revert i. induction items as [|x l IH]; intros i; simpl; [constructor|].
  destruct (p x); simpl; [|apply IH].
  constructor; [|apply IH].
  intros H. apply guarded_calls_In in H. lia.
Qed.

Lemma single_step_calls (s : OrderStep.t T) (p : T -> bool) elements :
  OrderStep.predicate s = Some p ->
  sort_calls elements (Order.mk [s]) =
  if (length elements <=? 1)%nat then [] else guarded_calls 0 p 0 elements.
Proof.
  intros Hp. unfold sort_calls, short_circuit. simpl.
  rewrite orb_false_r. unfold step_calls. rewrite Hp.
  now rewrite app_nil_r.
Qed.

(** C3 (amended). For an Order of one step whose predicate excludes [k] of
    the [n] elements of the input: when [n >= 2], [Order.sort] calls the
    step's key function exactly [n - k] times, never on an excluded
    element, never twice on the same element, and all of these calls are
    made by the decoration loop, none by the sort of the indexes; when
    [n <= 1] it does not call the key function at all. *)
Theorem key_call_budget (s : OrderStep.t T) (p : T -> bool)
    (array : Store.ref) (w : Store.world (T:=T)) :
  OrderStep.predicate s = Some p ->
  let elements := Store.contents array w in
  let order := Order.mk [s] in
  exists calls,
    Store.key_calls (snd (Order.sort array order w)) =
      Store.key_calls w ++ calls /\
    (length elements <= 1 -> calls = []) /\
    (2 <= length elements ->
     length calls =
       length elements - length (filter (fun x => negb (p x)) elements) /\
     NoDup calls /\
     (forall j i, In (j, i) calls ->
        j = 0 /\ exists x, nth_error elements i = Some x /\ p x = true) /\
     Store.key_calls (snd (Order.sort array order w)) =
       Store.key_calls (snd (Order.decorate 0 [s] elements w))).
Proof.
  intros Hp elements order.
  exists (sort_calls elements order). unfold order.
  rewrite sort_run, decorate_run. simpl. fold elements.
  rewrite (single_step_calls s p elements Hp).
  split; [reflexivity|]. split.
  - intros Hlen. apply Nat.leb_le in Hlen. now rewrite Hlen.
  - intros Hlen.
    assert (Hl : (length elements <=? 1)%nat = false)
      by (apply Nat.leb_gt; lia).
    rewrite Hl. repeat split.
    + rewrite guarded_calls_length.
      pose proof (filter_length p elements). lia.
    + apply guarded_calls_NoDup.
    + now apply guarded_calls_In in H.
    + apply guarded_calls_In in H.
      destruct H as [_ [_ H]]. now rewrite Nat.sub_0_r in H.
    + unfold step_calls. rewrite Hp. now rewrite app_nil_r.
Qed.

End SortEffects.

(* ------------------------------------------------------------------ *)
(** ** The sign of the results *)

Section UnitSign.
Context {U : Unknown} {T : Type}.

(** C10. Whatever the custom comparators of the steps answer, the derived
    comparator returns exactly -1, 0 or 1, and so does the index comparator
    of [Order.sort] (on any buffers, with the directions of the steps); the
    standalone [by] and [order], unlike them, hand out the answer of the
    comparator they delegate to as it is. *)
Theorem compare_returns_unit_sign (o : Order.t T) (a b : T)
    (keysPerStep : list (list unknown))
    (predicateMatchesPerStep : list (option (list bool)))
    (cmps : list (option (unknown -> unknown -> float))) (ia ib : nat) :
  unit_sign (Order.compare o a b) /\
  unit_sign
    (Order.index_compare (length (Order._steps o)) keysPerStep
       predicateMatchesPerStep
       (List.map (fun s => to_int8 (sign_value (OrderStep.direction s)))
          (Order._steps o))
       cmps ia ib) /\
  (forall (key : T -> unknown) (c : unknown -> unknown -> float),
     Comparator.by_ key (Some (KeyOptions.mk None (Some c) None)) a b =
       c (key a) (key b) /\
     Comparator.by_ key (Some (KeyOptions.mk (Some desc) (Some c) None)) a b =
       c (key b) (key a)) /\
  (forall c : T -> T -> float,
     nonzero (c a b) = true -> Comparator.order [c] a b = c a b).
Proof.
  repeat split.
  - rewrite compare_outcome. unfold unit_sign, result.
    destruct (outcome (Order._steps o) a b) as [r|] eqn:E; [|auto].
    destruct (outcome_sign _ _ _ _ E); auto.
  - apply index_compare_sign.
  - intros c Hc. unfold Comparator.order, for_return. simpl. now rewrite Hc.
Qed.

End UnitSign.

(* ------------------------------------------------------------------ *)
(** ** The standalone comparator [number] *)

Section Number.
Local Open Scope float_scope.

(** C9. [number] puts NaN before every other number and ties it with
    itself: [number(NaN, 5)] is negative, [number(5, NaN)] is positive,
    [number(NaN, NaN)] is 0, and so for every NaN and non-NaN argument; on
    two arguments that are not NaN its answer is negative when [a < b],
    positive when [a > b], and neither when [a == b]. *)
Theorem number_orders_nan_first :
  (Comparator.number nan 5 <? 0) = true /\
  (0 <? Comparator.number 5 nan) = true /\
  Comparator.number nan nan = 0 /\
  forall a b : float,
    (is_nan a = true -> is_nan b = true -> Comparator.number a b = 0) /\
    (is_nan a = true -> is_nan b = false -> Comparator.number a b = -1) /\
    (is_nan a = false -> is_nan b = true -> Comparator.number a b = 1) /\
    (is_nan a = false -> is_nan b = false ->
     ((a <? b) = true -> (Comparator.number a b <? 0) = true) /\
     ((b <? a) = true -> (0 <? Comparator.number a b) = true) /\
     ((a =? b) = true ->
      (Comparator.number a b <? 0) = false /\
      (0 <? Comparator.number a b) = false)).
Proof.
  split; [reflexivity|]. split; [reflexivity|]. split; [reflexivity|].
  intros a b. unfold Comparator.number.
  split; [|split; [|split]]; intros Ha Hb; rewrite Ha, Hb; simpl;
    try reflexivity.
  exact (sub_sign a b).
Qed.

End Number.

(* ------------------------------------------------------------------ *)
(** ** The properties on concrete inputs *)

Module Examples.
Import Prim.

#[local] Existing Instance prim_unknown.
#[local] Existing Instance prim_element.
#[local] Existing Instance insertion_sort.

(** [(x) => x]. *)
Definition identity_key (v : value) : value := v.

(** [(x) => x ?? 0]. *)
Definition or_zero (v : value) : value :=
  match v with
  | Undefined => Number 0
  | Null => Number 0
  | _ => v
  end.

(** [(x) => typeof x === 'number']. *)
Definition is_number (v : value) : bool :=
  match v with Number _ => true | _ => false end.

(** [() => 1]. *)
Definition always_after (x y : value) : float := 1%float.

Definition numbers : list value := [Number 3; Number 1; Number 2].
Definition with_undefined : list value := [Number 3; Undefined; Number 1].
Definition scores : list value :=
  [Undefined; Number 10; Number 5; Undefined].
Definition single : list value := [Number 42].

Definition one_array (elements : list value) : Store.world :=
  Store.mkWorld [elements] [].

(** [Order.by(x => x)]. *)
Definition by_value : Order.t value := Order.by_ identity_key None.

(** [Order.by(x => x ?? 0)]. *)
Definition by_value_or_zero : Order.t value := Order.by_ or_zero None.

(** [Order.by(x => x, { predicate: isNumber })]. *)
Definition guarded_options : option (KeyOptions.t value) :=
  Some (KeyOptions.mk None None (Some is_number)).
Definition by_number : Order.t value := Order.by_ identity_key guarded_options.
Definition by_number_step : OrderStep.t value :=
  OrderStep.mk identity_key Plus1 None (Some is_number).

(** [Order.by(x => x, { compare: () => 1 })]. *)
Definition by_constant : Order.t value :=
  Order.by_ identity_key
    (Some (KeyOptions.mk None (Some always_after) None)).

(** [Order.by(x => x, { compare })] with the standalone [compare]. *)
Definition by_compare : Order.t value :=
  Order.by_ identity_key
    (Some (KeyOptions.mk None (Some Comparator.compare) None)).

(** [Order.by(x => x, { compare: number })] on keys that are numbers. *)
Definition by_number_comparator : Order.t value :=
  Order.by_ identity_key
    (Some (KeyOptions.mk None
             (Some (fun x y => Comparator.number (ToNumber x) (ToNumber y)))
             None)).

Example sort_ascending :
  Order.sorted numbers by_value = [Number 1; Number 2; Number 3].
Proof. reflexivity. Qed.

Example sort_descending :
  Order.sorted numbers (Order.reverse by_value) =
  [Number 3; Number 2; Number 1].
Proof. reflexivity. Qed.

Example sort_guarded_is_stable :
  Order.sorted scores by_number = [Undefined; Number 5; Number 10; Undefined]
  /\ Order.sort_key_calls scores by_number = [(0, 1); (0, 2)].
Proof. split; reflexivity. Qed.

Example standalone_by_keeps_magnitude :
  Comparator.by_ identity_key
    (Some (KeyOptions.mk None (Some (fun _ _ => 5%float)) None))
    (Number 1) (Number 2) = 5%float /\
  Order.compare
    (Order.by_ identity_key
       (Some (KeyOptions.mk None (Some (fun _ _ => 5%float)) None)))
    (Number 1) (Number 2) = 1%float.
Proof. split; reflexivity. Qed.

(** With the library's own [number] as the step's comparator an infinite
    key is not equal to itself: [Infinity - Infinity] is NaN, which the
    step walk takes for a negative answer. *)
Example infinite_key_against_itself :
  Comparator.number infinity infinity = nan /\
  Order.compare by_number_comparator (Number infinity) (Number infinity) =
  (-1)%float.
Proof. split; reflexivity. Qed.

(** C1, counterexample: on [[3, undefined, 1]] with the key [x ?? 0],
    [Order.sort] ranks [undefined] by its key, first, while the host's sort
    puts it last without asking the comparator. *)
Lemma sort_differs_on_undefined :
  Store.contents
    (fst (Order.sort 0 by_value_or_zero (one_array with_undefined)))
    (snd (Order.sort 0 by_value_or_zero (one_array with_undefined))) =
    [Undefined; Number 1; Number 3] /\
  Array_sort (Order.compare by_value_or_zero)
    (Store.contents 0 (one_array with_undefined)) =
    [Number 1; Number 3; Undefined] /\
  Store.contents
    (fst (Order.sort 0 by_value_or_zero (one_array with_undefined)))
    (snd (Order.sort 0 by_value_or_zero (one_array with_undefined))) <>
  Array_sort (Order.compare by_value_or_zero)
    (Store.contents 0 (one_array with_undefined)).
Proof.
  split; [reflexivity|]. split; [reflexivity|].
  vm_compute. discriminate.
Qed.

Lemma sort_equals_host_sort_witness :
  all_defined (Store.contents 0 (one_array numbers)) /\
  Store.contents (fst (Order.sort 0 by_value (one_array numbers)))
                 (snd (Order.sort 0 by_value (one_array numbers))) =
  Array_sort (Order.compare by_value) (Store.contents 0 (one_array numbers)).
Proof.
  assert (H : all_defined (Store.contents 0 (one_array numbers))).
  { intros x [<-|[<-|[<-|[]]]]; reflexivity. }
  split; [exact H|].
  exact (sort_equals_host_sort 0 by_value (one_array numbers) H).
Defined.

(** C3, counterexample: one element, none excluded ([n = 1], [k = 0]):
    the key function is not called, where [n - k] is 1. *)
Lemma key_not_called_on_single_element :
  OrderStep.predicate by_number_step = Some is_number /\
  by_number = Order.mk [by_number_step] /\
  length single - length (filter (fun x => negb (is_number x)) single) = 1 /\
  length (Order.sort_key_calls single by_number) = 0.
Proof. repeat split. Qed.

Lemma key_call_budget_witness :
  OrderStep.predicate by_number_step = Some is_number /\
  length (Order.sort_key_calls scores (Order.mk [by_number_step])) = 4 - 2.
Proof.
  split; [reflexivity|].
  pose proof (key_call_budget by_number_step is_number 0 (one_array scores)
                eq_refl) as H.
  cbv zeta in H. destruct H as [calls [H1 [_ H3]]].
  unfold Order.sort_key_calls. fold (one_array scores). rewrite H1.
  destruct (H3 (le_S _ _ (le_S _ _ (le_n 2)))) as [Hlen _].
  exact Hlen.
Defined.

Lemma sort_never_mutates_witness :
  0 < length (Store.arrays (one_array numbers)) /\
  fst (Order.sort 0 by_value (one_array numbers)) <> 0 /\
  Store.contents 0 (snd (Order.sort 0 by_value (one_array numbers))) =
  numbers.
Proof.
  assert (H : 0 < length (Store.arrays (one_array numbers))) by apply le_n.
  split; [exact H|].
  pose proof (sort_never_mutates 0 by_value (one_array numbers) H) as Hs.
  cbv zeta in Hs. destruct Hs as [H1 [H2 _]].
  split; [exact H1|exact H2].
Defined.

(** C5, counterexample: with the custom comparator [() => 1] and no
    predicate at all, [compare(1, 2)] and [compare(2, 1)] are both 1, and
    [compare(1, 1)] is 1. *)
Lemma constant_comparator_not_symmetric :
  predicates_agree by_constant (Number 1) (Number 2) /\
  Order.compare by_constant (Number 1) (Number 2) = 1%float /\
  Order.compare by_constant (Number 2) (Number 1) = 1%float /\
  (Order.compare by_constant (Number 1) (Number 2) =?
   - Order.compare by_constant (Number 2) (Number 1))%float = false /\
  Order.compare by_constant (Number 1) (Number 1) = 1%float /\
  Order.compare by_constant (Number 1) (Number 1) <> 0%float.
Proof.
  split.
  { intros s p [<-|[]] H. discriminate H. }
  repeat split. vm_compute. intros H.
  assert (E : (1 =? 0)%float = true) by (rewrite H; reflexivity).
  discriminate E.
Qed.

Lemma compare_antisymmetric_reflexive_witness :
  predicates_agree by_compare (Number 1) (Number 2) /\
  comparators_antisymmetric by_compare (Number 1) (Number 2) /\
  comparators_reflexive by_compare (Number 1) /\
  (Order.compare by_compare (Number 1) (Number 2) =?
   - Order.compare by_compare (Number 2) (Number 1))%float = true /\
  Order.compare by_compare (Number 1) (Number 1) = 0%float.
Proof.
  assert (Hp : predicates_agree by_compare (Number 1) (Number 2)).
  { intros s p [<-|[]] H. discriminate H. }
  assert (Hc : comparators_antisymmetric by_compare (Number 1) (Number 2)).
  { intros s c [<-|[]] H. injection H as <-. split; [reflexivity|].
    intros _. reflexivity. }
  assert (Hr : comparators_reflexive by_compare (Number 1)).
  { intros s c [<-|[]] H. injection H as <-. reflexivity. }
  split; [exact Hp|]. split; [exact Hc|]. split; [exact Hr|]. split.
  - exact (proj1 (compare_antisymmetric_reflexive by_compare) _ _ Hp Hc).
  - exact (proj2 (compare_antisymmetric_reflexive by_compare) _ Hr).
Defined.

Lemma when_guard_conjunction_witness :
  is_number Undefined = false /\
  Order.compare (Order.when is_number by_value) (Number 1) Undefined =
  0%float.
Proof.
  split; [reflexivity|].
  exact (proj1
           (proj1 (proj2 (proj2 (when_guard_conjunction is_number by_value)))
              (Number 1) Undefined (or_intror eq_refl))).
Defined.

End Examples.

(* ------------------------------------------------------------------ *)
(** ** More of [order.ts]: what a sort returns and which keys it asks for *)

Section SortMore.
Context {U : Unknown} {HS : HostSort} {T : Type}.

Lemma materialize_all (elements : list T) :
  Order.materialize elements (seq 0 (length elements)) = elements.
Proof.
  apply map_Some_inj.
  rewrite materialize_in_range by (intros i Hi; apply in_seq in Hi; lia).
  apply reads_of_all_indexes.
Qed.

Lemma sort_result_perm (elements : list T) (order : Order.t T) :
  Permutation (sort_result elements order) elements.
Proof.
  unfold sort_result.
  destruct (short_circuit elements order); [reflexivity|].
  transitivity (Order.materialize elements (seq 0 (length elements)));
    [|now rewrite materialize_all].
  unfold Order.materialize. apply Permutation_flat_map.
  apply sorted_indexes_perm.
Qed.

(** X1. The array [Order.sort] returns is a rearrangement of the input
    array: every element is kept, with its multiplicity, whatever the
    Order and whatever the elements ([undefined] ones included). *)
Theorem sort_is_permutation (array : Store.ref) (order : Order.t T)
    (w : Store.world (T:=T)) :
  Permutation
    (Store.contents (fst (Order.sort array order w))
                    (snd (Order.sort array order w)))
    (Store.contents array w) /\
  length (Store.contents (fst (Order.sort array order w))
                         (snd (Order.sort array order w))) =
  length (Store.contents array w).
Proof.
  rewrite sort_run. simpl. rewrite contents_of_new.
  split; [apply sort_result_perm|].
  apply Permutation_length, sort_result_perm.
Qed.

(** X2. When the derived comparator ties every two elements of the array
    (all are rejected by the predicates, or all have equal keys), the sort
    returns the elements in the order they had. *)
Theorem sort_keeps_order_of_ties (array : Store.ref) (order : Order.t T)
    (w : Store.world (T:=T)) :
  (forall x y,
     In x (Store.contents array w) -> In y (Store.contents array w) ->
     Order.compare order x y = 0%float) ->
  Store.contents (fst (Order.sort array order w))
                 (snd (Order.sort array order w)) =
  Store.contents array w.
Proof.
  intros Hties. rewrite sort_run. simpl. rewrite contents_of_new.
  set (elements := Store.contents array w) in *.
  unfold sort_result.
  destruct (short_circuit elements order); [reflexivity|].
  unfold sort_indexes, Array_sort.
  rewrite host_sort_ties; [apply materialize_all|].
  intros i j Hi Hj. apply in_seq in Hi, Hj.
  destruct (nth_error elements i) as [a|] eqn:Ha;
    [|apply nth_error_None in Ha; lia].
  destruct (nth_error elements j) as [b|] eqn:Hb;
    [|apply nth_error_None in Hb; lia].
  unfold SortCompare. simpl.
  rewrite (index_compare_replays order elements i j a b Ha Hb).
  rewrite Hties by (eapply nth_error_In; eassumption).
  reflexivity.
Qed.

Lemma guarded_calls_In_iff j (p : T -> bool) i items j' k :
  In (j', k) (guarded_calls j p i items) <->
  j' = j /\ i <= k /\
  exists x, nth_error items (k - i) = Some x /\ p x = true.
Proof.
  split; [apply guarded_calls_In|].
  revert i. induction items as [|x l IH]; intros i [-> [Hk [y [Hy Hp]]]].
  - now destruct (k - i).
  - simpl. apply in_app_iff.
    destruct (Nat.eq_dec k i) as [->|Hne].
    + left. rewrite Nat.sub_diag in Hy. simpl in Hy.
      injection Hy as ->. rewrite Hp. now left.
    + right. apply IH. repeat split; [lia|]. exists y. split; [|assumption].
      replace (k - i) with (S (k - S i)) in Hy by lia. exact Hy.
Qed.

Lemma step_calls_In j (s : OrderStep.t T) items j' k :
  In (j', k) (step_calls j s items) <->
  j' = j /\
  exists x, nth_error items k = Some x /\
            holds (OrderStep.predicate s) x = true.
Proof.
  unfold step_calls, holds.
  destruct (OrderStep.predicate s) as [p|];
    rewrite guarded_calls_In_iff, Nat.sub_0_r; intuition lia.
Qed.

Lemma decorate_calls_In j steps (items : list T) j' k :
  In (j', k) (decorate_calls j steps items) <->
  j <= j' /\
  exists s x,
    nth_error steps (j' - j) = Some s /\ nth_error items k = Some x /\
    holds (OrderStep.predicate s) x = true.
Proof.
  revert j. induction steps as [|s rest IH]; intros j; simpl.
  - split; [tauto|]. intros [_ [s [x [Hs _]]]]. now destruct (j' - j).
  - rewrite in_app_iff, step_calls_In, IH. split.
    + intros [[-> [x [Hx Hp]]]|[Hj [s' [x [Hs [Hx Hp]]]]]].
      * split; [lia|]. exists s, x. now rewrite Nat.sub_diag.
      * split; [lia|]. exists s', x.
        replace (j' - j) with (S (j' - S j)) by lia. auto.
    + intros [Hj [s' [x [Hs [Hx Hp]]]]].
      destruct (Nat.eq_dec j' j) as [->|Hne].
      * left. rewrite Nat.sub_diag in Hs. simpl in Hs.
        injection Hs as ->. eauto.
      * right. split; [lia|]. exists s', x.
        replace (j' - j) with (S (j' - S j)) in Hs by lia. auto.
Qed.

Lemma step_calls_NoDup j (s : OrderStep.t T) items :
  NoDup (step_calls j s items).
Proof.
  unfold step_calls. destruct (OrderStep.predicate s);
    apply guarded_calls_NoDup.
Qed.

Lemma decorate_calls_NoDup j steps (items : list T) :
  NoDup (decorate_calls j steps items).
Proof.
  revert j. induction steps as [|s rest IH]; intros j; simpl;
    [constructor|].
  apply NoDup_app; [apply step_calls_NoDup|apply IH|].
  intros [j' k] H1 H2.
  apply step_calls_In in H1. apply decorate_calls_In in H2. lia.
Qed.

Lemma decorate_calls_length j steps (items : list T) :
  length (decorate_calls j steps items) =
  list_sum
    (List.map
       (fun s => length (filter (holds (OrderStep.predicate s)) items))
       steps).
Proof.
  revert j. induction steps as [|s rest IH]; intros j; simpl;
    [reflexivity|].
  rewrite length_app, IH. f_equal.
  unfold step_calls, holds.
  destruct (OrderStep.predicate s); apply guarded_calls_length.
Qed.

(** X3. The key calls of a sort, for any number of steps. When the array
    has at most one element or the Order has no step there is none.
    Otherwise step [j]'s key function is called on element [i] exactly
    when the step has no predicate or its predicate accepts the element,
    and then once; the number of calls is the sum over the steps of the
    number of elements the step accepts, [n] times the number of steps
    for an Order without predicates. *)
Theorem key_calls_of_sort (array : Store.ref) (order : Order.t T)
    (w : Store.world (T:=T)) :
  let elements := Store.contents array w in
  let steps := Order._steps order in
  exists calls,
    Store.key_calls (snd (Order.sort array order w)) =
      Store.key_calls w ++ calls /\
    (length elements <= 1 \/ steps = [] -> calls = []) /\
    (2 <= length elements -> steps <> [] ->
     NoDup calls /\
     (forall j i,
        In (j, i) calls <->
        exists s x,
          nth_error steps j = Some s /\ nth_error elements i = Some x /\
          holds (OrderStep.predicate s) x = true) /\
     length calls =
       list_sum
         (List.map
            (fun s =>
               length (filter (holds (OrderStep.predicate s)) elements))
            steps) /\
     ((forall s, In s steps -> OrderStep.predicate s = None) ->
      length calls = length steps * length elements)).
Proof.
  intros elements steps. exists (sort_calls elements order).
  rewrite sort_run. simpl. fold elements. split; [reflexivity|].
  unfold sort_calls, short_circuit. fold steps. split.
  - intros [Hlen|Hsteps].
    + apply Nat.leb_le in Hlen. now rewrite Hlen.
    + rewrite Hsteps. simpl. now rewrite orb_true_r.
  - intros Hlen Hsteps.
    assert (Hl : (length elements <=? 1)%nat = false)
      by (apply Nat.leb_gt; lia).
    assert (Hs : (length steps =? 0)%nat = false)
      by (destruct steps; [congruence|reflexivity]).
    rewrite Hl, Hs. simpl.
    split; [apply decorate_calls_NoDup|]. split; [|split].
    + intros j i. rewrite decorate_calls_In, Nat.sub_0_r.
      split; [intros [_ H]; exact H|intros H; split; [lia|exact H]].
    + apply decorate_calls_length.
    + intros Hnone. rewrite decorate_calls_length.
      clear Hsteps Hs. induction steps as [|s rest IH]; [reflexivity|].
      simpl. rewrite IH by (intros; apply Hnone; now right).
      rewrite (Hnone s (or_introl eq_refl)). simpl.
      f_equal. clear. induction elements; simpl; congruence.
Qed.

End SortMore.

(* ------------------------------------------------------------------ *)
(** ** More of [order.ts]: construction and composition *)

Section OrderMore.
Context {U : Unknown}.

(** The first answer that is not zero, 0 when there is none. *)
Fixpoint first_nonzero (answers : list float) : float :=
  match answers with
  | [] => 0%float
  | r :: rest => if nonzero r then r else first_nonzero rest
  end.

(** An answer reduced to its sign, as a step of an Order does. *)
Definition unit_of (r : float) : float :=
  if nonzero r then (if gt_zero r then 1%float else (-1)%float)
  else 0%float.

Lemma order_ext {T : Type} (o1 o2 : Order.t T) :
  Order._steps o1 = Order._steps o2 -> o1 = o2.
Proof. destruct o1, o2; simpl; congruence. Qed.

Lemma compare_app {T : Type} (o o1 o2 : Order.t T) (a b : T) :
  Order._steps o = Order._steps o1 ++ Order._steps o2 ->
  Order.compare o a b =
  if nonzero (Order.compare o1 a b) then Order.compare o1 a b
  else Order.compare o2 a b.
Proof.
  intros H. rewrite !compare_outcome, H, outcome_app, outcome_nonzero.
  now destruct (outcome (Order._steps o1) a b).
Qed.

Lemma steps_of_source_steps {T : Type} (s : option (Order.t T)) :
  Order.steps_of_source s =
  match s with Some o => Order._steps o | None => [] end.
Proof.
  destruct s as [o|]; [|reflexivity]. unfold Order.steps_of_source.
  now destruct (Order._steps o).
Qed.

(** X4. The constructor. Without a source, or with a null one, the Order
    has no step; a copy has the steps, and so the comparator, of its
    source; a merge has the steps of its sources that are not null, in
    order, and its comparator returns the first answer that is not 0 among
    the sources' comparators (a null source answering 0). *)
Theorem new_copies_and_merges {T : Type} :
  Order._steps (Order.new (@Order.NoSource U T)) = [] /\
  Order._steps (Order.new (Order.OneSource (T:=T) None)) = [] /\
  (forall o : Order.t T,
     Order.new (Order.OneSource (Some o)) = o) /\
  (forall ss : list (option (Order.t T)),
     Order._steps (Order.new (Order.ManySources ss)) =
       flat_map
         (fun s => match s with Some o => Order._steps o | None => [] end)
         ss /\
     forall a b : T,
       Order.compare (Order.new (Order.ManySources ss)) a b =
       first_nonzero
         (List.map
            (fun s =>
               match s with
               | Some o => Order.compare o a b
               | None => 0%float
               end)
            ss)).
Proof.
  split; [reflexivity|]. split; [reflexivity|]. split.
  - intros o. apply order_ext. exact (steps_of_source_steps (Some o)).
  - intros ss.
    assert (E : Order._steps (Order.new (Order.ManySources ss)) =
                flat_map
                  (fun s =>
                     match s with
                     | Some o => Order._steps o
                     | None => []
                     end) ss).
    { simpl. induction ss as [|s ss IH]; simpl; [reflexivity|].
      now rewrite IH, steps_of_source_steps. }
    split; [exact E|]. intros a b. rewrite compare_outcome, E. clear E.
    induction ss as [|s ss IH]; simpl; [reflexivity|].
    rewrite outcome_app. destruct s as [o|]; simpl.
    + rewrite compare_outcome, outcome_nonzero.
      destruct (outcome (Order._steps o) a b); [reflexivity|exact IH].
    + exact IH.
Qed.

(** X5. The instance method [by] appends: the extended Order answers as
    the receiver does wherever the receiver's answer is not 0, and as the
    one-step Order of the new key does elsewhere; on an Order without
    steps it is the static [by]. *)
Theorem then_by_is_lexicographic {T : Type} (this : Order.t T)
    (key : T -> unknown) (options : option (KeyOptions.t T)) :
  Order._steps (Order.then_by this key options) =
    Order._steps this ++ Order._steps (Order.by_ key options) /\
  (forall a b : T,
     Order.compare (Order.then_by this key options) a b =
     if nonzero (Order.compare this a b) then Order.compare this a b
     else Order.compare (Order.by_ key options) a b) /\
  (Order._steps this = [] ->
   Order.then_by this key options = Order.by_ key options).
Proof.
  split; [reflexivity|]. split.
  - intros a b. now apply compare_app.
  - intros H. apply order_ext. simpl. now rewrite H.
Qed.

(** X6. The instance method [when]: the receiver's steps decide first and
    the guarded Order only breaks the receiver's ties; on a pair of which
    one element fails the guard the result is the receiver's answer. *)
Theorem then_when_breaks_ties {T : Type} (this : Order.t T)
    (pred : T -> bool) (inner : Order.t T) (a b : T) :
  Order.compare (Order.then_when this pred inner) a b =
    (if nonzero (Order.compare this a b) then Order.compare this a b
     else Order.compare (Order.when pred inner) a b) /\
  (pred a = false \/ pred b = false ->
   Order.compare (Order.then_when this pred inner) a b =
   Order.compare this a b).
Proof.
  assert (E : Order._steps (Order.then_when this pred inner) =
              Order._steps this ++ Order._steps (Order.when pred inner)).
  { unfold Order.then_when.
    destruct (Order._steps this) as [|s l] eqn:Hs; [reflexivity|].
    change (length (s :: l) =? 0)%nat with false. cbv iota.
    destruct (Order._steps (Order.when pred inner)) as [|g gs] eqn:G.
    - simpl. rewrite Hs. simpl. now rewrite app_nil_r.
    - reflexivity. }
  split; [now apply compare_app|].
  intros H. rewrite !compare_outcome, E, outcome_app.
  rewrite (when_outcome_none pred inner a b H).
  now destruct (outcome (Order._steps this) a b).
Qed.

Lemma compare_keys_flip c (d : DirectionSign) (x y : unknown) :
  compare_keys c (sign_number (flip d)) x y =
  option_map PrimFloat.opp (compare_keys c (sign_number d) x y).
Proof.
  unfold compare_keys. destruct c as [c|].
  - destruct (nonzero (c x y)); [|reflexivity].
    destruct (gt_zero (c x y)), d; reflexivity.
  - destruct (lt x y); [now destruct d|].
    destruct (gt x y); [now destruct d|reflexivity].
Qed.

Lemma reverse_outcome {T : Type} (o : Order.t T) (a b : T) :
  outcome (Order._steps (Order.reverse o)) a b =
  option_map PrimFloat.opp (outcome (Order._steps o) a b).
Proof.
  rewrite steps_reverse. unfold outcome. rewrite for_rounds_map.
  induction (Order._steps o) as [|s rest IH]; simpl; [reflexivity|].
  rewrite IH. unfold Order.compare_step. simpl.
  destruct (match OrderStep.predicate s with
            | Some p => negb (p a) || negb (p b)
            | None => false
            end); [reflexivity|].
  rewrite compare_keys_flip.
  now destruct (compare_keys _ _ _ _).
Qed.

(** X7. The comparator of a reversed Order is the opposite of the
    Order's: [-1] where it answers [1], [1] where it answers [-1], and [0]
    where it answers [0]. *)
Theorem reverse_negates_compare {T : Type} (o : Order.t T) (a b : T) :
  Order.compare (Order.reverse o) a b =
    (if nonzero (Order.compare o a b)
     then (- Order.compare o a b)%float
     else 0%float) /\
  (Order.compare (Order.reverse o) a b =? - Order.compare o a b)%float
  = true.
Proof.
  rewrite !compare_outcome, reverse_outcome.
  destruct (outcome (Order._steps o) a b) as [r|] eqn:E; simpl.
  - destruct (outcome_sign _ _ _ _ E); subst; split; reflexivity.
  - split; reflexivity.
Qed.

(** X8. The one-step Order and the standalone [by] of the same key and
    options: with the default comparison they are the same comparator,
    in either direction and with or without predicate; with a custom
    comparator and ascending direction the Order's answer is the sign of
    the standalone comparator's (a NaN answer counting as negative). *)
Theorem order_by_agrees_with_by {T : Type} (key : T -> unknown)
    (options : option (KeyOptions.t T)) (a b : T) :
  (options_compare options = None ->
   Order.compare (Order.by_ key options) a b =
   Comparator.by_ key options a b) /\
  (options_direction options = asc ->
   Order.compare (Order.by_ key options) a b =
   unit_of (Comparator.by_ key options a b)).
Proof.
  rewrite compare_outcome.
  unfold outcome, Order.by_, Comparator.by_, Order.compare_step. simpl.
  destruct (options_direction options), (options_compare options) as [c|],
    (options_predicate options) as [p|].
  all: split; intros H; try discriminate H.
  all: try (destruct (negb (p a) || negb (p b)); [reflexivity|]).
  all: unfold compare_keys, Comparator.compare, Comparator.reverse, unit_of,
         gt, result.
  all: try (destruct (nonzero (c (key a) (key b)));
            [destruct (gt_zero (c (key a) (key b)))|]; reflexivity).
  all: destruct (lt (key a) (key b)) eqn:Hab;
         [try rewrite (lt_asym _ _ Hab); reflexivity|];
         destruct (lt (key b) (key a)); reflexivity.
Qed.

(** X9. Two guards are one: guarding by [q] and then by [p] gives the
    comparator of the Order guarded once by the conjunction of [q] and
    [p]. *)
Theorem when_when_is_conjunction {T : Type} (p q : T -> bool)
    (o : Order.t T) (a b : T) :
  Order.compare (Order.when p (Order.when q o)) a b =
  Order.compare (Order.when (fun v => q v && p v) o) a b.
Proof.
  rewrite !compare_outcome, !steps_when, map_map. unfold outcome.
  rewrite !for_rounds_map. f_equal. apply for_rounds_ext. intros s _.
  unfold Order.compare_step. simpl.
  destruct (OrderStep.predicate s) as [p0|]; simpl.
  - now rewrite !andb_assoc.
  - reflexivity.
Qed.

(** X10. The compositions commute: reversing a guarded Order is guarding
    the reversed Order, reversing a lifted Order is lifting the reversed
    Order, and lifting a guarded Order is guarding the lifted Order by the
    guard taken after the projection. *)
Theorem compositions_commute {T K : Type} (p : T -> bool) (q : K -> bool)
    (outer : T -> K) (o : Order.t T) (sub : Order.t K) :
  Order.reverse (Order.when p o) = Order.when p (Order.reverse o) /\
  Order.reverse (Order.map outer sub) = Order.map outer (Order.reverse sub) /\
  Order.map outer (Order.when q sub) =
  Order.when (fun t0 => q (outer t0)) (Order.map outer sub).
Proof.
  repeat split; apply order_ext.
  - rewrite steps_reverse, !steps_when, steps_reverse, !map_map.
    reflexivity.
  - rewrite steps_reverse, !steps_map, steps_reverse, !map_map.
    reflexivity.
  - rewrite steps_map, !steps_when, steps_map, !map_map.
    apply map_ext. intros s. simpl.
    now destruct (OrderStep.predicate s).
Qed.

End OrderMore.

(* ------------------------------------------------------------------ *)
(** ** More facts about numbers: trichotomy and equal operands *)

Section NumberMore.
Local Open Scope float_scope.

Lemma SFcompare_refl (x : spec_float) :
  x <> S754_nan -> SFcompare x x = Some Eq.
Proof.
  destruct x as [s|s| |s m e]; simpl; intros H; try congruence.
  - now destruct s.
  - destruct s; rewrite Z.compare_refl, Pos.compare_cont_refl; reflexivity.
Qed.

Lemma is_nan_spec (a : float) :
  is_nan a = false <-> Prim2SF a <> S754_nan.
Proof.
  unfold is_nan. rewrite eqb_spec. unfold SFeqb. split.
  - intros H E. rewrite E in H. discriminate H.
  - intros H. now rewrite SFcompare_refl.
Qed.

Lemma SFcompare_total (x y : spec_float) :
  x <> S754_nan -> y <> S754_nan -> exists c, SFcompare x y = Some c.
Proof.
  destruct x, y; simpl; intros Hx Hy; try congruence; eauto.
Qed.

Lemma SFcompare_antisym (x y : spec_float) :
  SFcompare y x = option_map CompOpp (SFcompare x y).
Proof.
  destruct x as [sx|sx| |sx mx ex], y as [sy|sy| |sy my ey]; simpl;
    try reflexivity;
    try (destruct sx; reflexivity); try (destruct sy; reflexivity);
    try (destruct sx, sy; reflexivity).
  rewrite (Z.compare_antisym ex ey), (ZC4 my mx).
  destruct sx, sy; try reflexivity;
    destruct (ex ?= ey)%Z; simpl; try reflexivity;
    destruct (Pos.compare_cont Eq mx my); reflexivity.
Qed.

(** Two numbers that are not NaN are ordered or equal. *)
Lemma float_trichotomy (a b : float) :
  is_nan a = false -> is_nan b = false ->
  (a <? b) = true \/ (b <? a) = true \/ (a =? b) = true.
Proof.
  rewrite !is_nan_spec, !ltb_spec, eqb_spec. unfold SFltb, SFeqb.
  intros Ha Hb. rewrite (SFcompare_antisym (Prim2SF a) (Prim2SF b)).
  destruct (SFcompare_total _ _ Ha Hb) as [[] E]; rewrite E; simpl; auto.
Qed.

(** The three readings of an answer exclude one another. *)
Lemma below_zero_answer (r : float) :
  (r <? 0) = true -> nonzero r = true /\ gt_zero r = false.
Proof.
  unfold nonzero, gt_zero. rewrite !ltb_spec, eqb_spec.
  unfold SFltb, SFeqb.
  rewrite (SFcompare_antisym (Prim2SF r) (Prim2SF 0)).
  destruct (SFcompare (Prim2SF r) (Prim2SF 0)) as [[]|];
    simpl; intros H; try discriminate; auto.
Qed.

Lemma above_zero_answer (r : float) :
  (0 <? r) = true -> nonzero r = true /\ gt_zero r = true.
Proof.
  unfold nonzero, gt_zero. rewrite !ltb_spec, eqb_spec.
  unfold SFltb, SFeqb.
  rewrite (SFcompare_antisym (Prim2SF r) (Prim2SF 0)).
  destruct (SFcompare (Prim2SF r) (Prim2SF 0)) as [[]|];
    simpl; intros H; try discriminate; auto.
Qed.

Lemma zero_answer (r : float) :
  (r =? 0) = true -> nonzero r = false /\ gt_zero r = false.
Proof.
  unfold nonzero, gt_zero. intros H. rewrite H. split; [reflexivity|].
  revert H. rewrite !ltb_spec, eqb_spec. unfold SFltb, SFeqb.
  rewrite (SFcompare_antisym (Prim2SF r) (Prim2SF 0)).
  destruct (SFcompare (Prim2SF r) (Prim2SF 0)) as [[]|];
    simpl; intros H; try discriminate; auto.
Qed.

Lemma eqb_sym (a b : float) : (b =? a) = (a =? b).
Proof.
  rewrite !eqb_spec. unfold SFeqb.
  rewrite (SFcompare_antisym (Prim2SF a) (Prim2SF b)).
  now destruct (SFcompare (Prim2SF a) (Prim2SF b)) as [[]|].
Qed.

Lemma is_infinity_spec (a : float) :
  is_infinity a = false -> forall s, Prim2SF a <> S754_infinity s.
Proof.
  unfold is_infinity. rewrite eqb_spec, abs_spec.
  intros H s E. rewrite E in H. discriminate H.
Qed.

(** The difference of two equal numbers that are not infinite is zero. *)
Lemma SFsub_equal (x y : spec_float) :
  valid_binary x = true -> valid_binary y = true ->
  SFcompare x y = Some Eq -> (forall s, x <> S754_infinity s) ->
  SFeqb (SF64sub x y) (S754_zero false) = true.
Proof.
  intros Hx Hy Hc Hfin.
  destruct x as [sx|sx| |sx mx ex], y as [sy|sy| |sy my ey];
    simpl in Hc; try discriminate;
    try (destruct sx; discriminate); try (destruct sy; discriminate).
  - destruct sx, sy; reflexivity.
  - now destruct (Hfin sx).
  - simpl in Hx, Hy.
    destruct (bounded_canonical _ _ Hx) as [_ [Hex _]].
    destruct (bounded_canonical _ _ Hy) as [_ [Hey _]].
    unfold SF64sub, SFsub.
    rewrite !shl_align_value by lia.
    pose proof (aligned_compare mx my ex ey Hx Hy) as Ha.
    assert (E : (Zpos mx * 2 ^ (ex - Z.min ex ey) =
                 Zpos my * 2 ^ (ey - Z.min ex ey))%Z /\ sx = sy).
    { destruct sx, sy; try discriminate; split; try reflexivity;
        apply Z.compare_eq; rewrite Ha;
        destruct (ex ?= ey)%Z; try discriminate;
        destruct (Pos.compare_cont Eq mx my); simpl in Hc;
        (discriminate || reflexivity). }
    destruct E as [E ->]. rewrite E.
    destruct sy; cbn [cond_Zopp]; rewrite Z.sub_diag; reflexivity.
Qed.

Lemma sub_equal (a b : float) :
  (a =? b) = true -> is_infinity a = false -> (a - b =? 0) = true.
Proof.
  rewrite !eqb_spec, sub_spec. unfold SFeqb at 1. intros H Hfin.
  destruct (SFcompare (Prim2SF a) (Prim2SF b)) as [[]|] eqn:E;
    try discriminate.
  apply SFsub_equal; auto using Prim2SF_valid, is_infinity_spec.
Qed.

End NumberMore.

(* ------------------------------------------------------------------ *)
(** ** More of [comparator/index.ts] *)

Section ComparatorMore.
Context {U : Unknown}.

Lemma opposite_answers_sym (r r' : float) :
  opposite_answers r r' -> opposite_answers r' r.
Proof.
  unfold opposite_answers. intros [Hn Hp]. split; [congruence|].
  intros H. rewrite Hn in H. rewrite (Hp H). now rewrite negb_involutive.
Qed.

Lemma opposite_zero : opposite_answers 0 0.
Proof. split; [reflexivity|discriminate]. Qed.

Lemma opposite_units :
  opposite_answers 1 (-1) /\ opposite_answers (-1) 1.
Proof. repeat split. Qed.

Lemma order_unfold {T : Type} (cs : list (Comparator.Comparator T))
    (a b : T) :
  Comparator.order cs a b = first_nonzero (List.map (fun c => c a b) cs).
Proof.
  unfold Comparator.order, for_return.
  rewrite (for_rounds_nth_error
             (fun c : Comparator.Comparator T =>
                let r := c a b in if nonzero r then Some r else None)).
  induction cs as [|c cs IH]; simpl; [reflexivity|].
  destruct (nonzero (c a b)); [reflexivity|exact IH].
Qed.

Lemma first_nonzero_app (l1 l2 : list float) :
  first_nonzero (l1 ++ l2) =
  if nonzero (first_nonzero l1) then first_nonzero l1
  else first_nonzero l2.
Proof.
  induction l1 as [|r l1 IH]; simpl; [reflexivity|].
  destruct (nonzero r) eqn:E; [now rewrite E|exact IH].
Qed.

(** X11. [order(...comparators)] returns the answer of the first
    comparator whose answer is not zero and 0 when there is none. Hence a
    comparator that ties is skipped, and a chain of two lists of
    comparators is the chain of the first list wherever that answers, and
    the chain of the second elsewhere. *)
Theorem order_returns_first_nonzero {T : Type}
    (cs1 cs2 : list (Comparator.Comparator T)) (a b : T) :
  Comparator.order cs1 a b = first_nonzero (List.map (fun c => c a b) cs1) /\
  (forall z : Comparator.Comparator T,
     nonzero (z a b) = false ->
     Comparator.order (z :: cs1) a b = Comparator.order cs1 a b) /\
  Comparator.order (cs1 ++ cs2) a b =
    (if nonzero (Comparator.order cs1 a b) then Comparator.order cs1 a b
     else Comparator.order cs2 a b).
Proof.
  split; [apply order_unfold|]. split.
  - intros z Hz. rewrite !order_unfold. simpl. now rewrite Hz.
  - rewrite !order_unfold, map_app. apply first_nonzero_app.
Qed.

(** X12. [by] is made of the other combinators: the key is a [map], a
    descending direction is a [reverse] and a predicate is a [when];
    without options it is [map] alone. A descending [by] is the ascending
    one with its arguments swapped. *)
Theorem by_decomposes {T : Type} (key : T -> unknown)
    (d : option Direction) (c : option (unknown -> unknown -> float))
    (p : option (T -> bool)) (a b : T) :
  Comparator.by_ key (Some (KeyOptions.mk d c p)) a b =
    match p with
    | Some p => Comparator.when p
    | None => fun f => f
    end
      (match d with
       | Some desc => Comparator.reverse
       | _ => fun f => f
       end (Comparator.map key c)) a b /\
  Comparator.by_ key None a b = Comparator.map key None a b /\
  Comparator.by_ key (Some (KeyOptions.mk (Some desc) c p)) a b =
  Comparator.by_ key (Some (KeyOptions.mk (Some asc) c p)) b a.
Proof.
  unfold Comparator.by_, Comparator.when, Comparator.map,
    Comparator.reverse. simpl.
  repeat split.
  - destruct p as [p|]; [destruct (p a), (p b)|];
      destruct d as [[]|], c; reflexivity.
  - destruct p as [p|]; [destruct (p a), (p b)|]; reflexivity.
Qed.

(** X13. The "last" wrappers are the mirror images of the "first" ones:
    [nullsLast(cmp)(a, b)] is [nullsFirst(reverse(cmp))(b, a)], and
    [nansLast(cmp)(a, b)] is [nansFirst(reverse(cmp))(b, a)]. *)
Theorem last_wrappers_mirror_first {T : Type} {TY : Typeof T}
    (compareFn : Comparator.Comparator T) :
  (forall a b : Nullable T,
     Comparator.nullsLast compareFn a b =
     Comparator.nullsFirst (Comparator.reverse compareFn) b a) /\
  (forall a b : T,
     Comparator.nansLast compareFn a b =
     Comparator.nansFirst (Comparator.reverse compareFn) b a).
Proof.
  split.
  - intros [| |x] [| |y]; reflexivity.
  - intros a b. unfold Comparator.nansLast, Comparator.nansFirst.
    destruct (is_nan_number a), (is_nan_number b); reflexivity.
Qed.

(** X14. The null and the NaN wrappers keep a comparator antisymmetric:
    if [cmp] gives opposite answers on the two orders of a pair of
    defined values (of values that are not NaN), the wrapped comparator
    gives opposite answers on the two orders of any pair. *)
Theorem wrappers_keep_antisymmetry {T : Type} {TY : Typeof T}
    (compareFn : Comparator.Comparator T) :
  (forall a b : Nullable T,
     (forall x y, a = JValue x -> b = JValue y ->
        opposite_answers (compareFn x y) (compareFn y x)) ->
     opposite_answers (Comparator.nullsFirst compareFn a b)
                      (Comparator.nullsFirst compareFn b a) /\
     opposite_answers (Comparator.nullsLast compareFn a b)
                      (Comparator.nullsLast compareFn b a)) /\
  (forall a b : T,
     (is_nan_number a = false -> is_nan_number b = false ->
      opposite_answers (compareFn a b) (compareFn b a)) ->
     opposite_answers (Comparator.nansFirst compareFn a b)
                      (Comparator.nansFirst compareFn b a) /\
     opposite_answers (Comparator.nansLast compareFn a b)
                      (Comparator.nansLast compareFn b a)).
Proof.
  destruct opposite_units as [Hu1 Hu2]. pose proof opposite_zero as Hz.
  split.
  - intros [| |x] [| |y] H; simpl; split; auto;
      apply (H x y eq_refl eq_refl).
  - intros a b H. unfold Comparator.nansFirst, Comparator.nansLast.
    destruct (is_nan_number a), (is_nan_number b); simpl; split; auto.
Qed.

Lemma compare_opposite (x y : unknown) :
  opposite_answers (Comparator.compare x y) (Comparator.compare y x).
Proof.
  destruct opposite_units as [Hu1 Hu2]. pose proof opposite_zero as Hz.
  unfold Comparator.compare, gt.
  destruct (lt x y) eqn:Hxy.
  - now rewrite (lt_asym _ _ Hxy).
  - now destruct (lt y x).
Qed.

(** X15. The natural [compare] answers exactly -1, 0 or 1, answers 0 on a
    value against itself and gives opposite answers on the two orders of
    any pair. *)
Theorem natural_compare_is_consistent (x y : unknown) :
  unit_sign (Comparator.compare x y) /\
  Comparator.compare x x = 0%float /\
  opposite_answers (Comparator.compare x y) (Comparator.compare y x) /\
  (Comparator.compare y x =? - Comparator.compare x y)%float = true.
Proof.
  split; [|split; [|split; [apply compare_opposite|]]];
    unfold Comparator.compare, gt, unit_sign.
  - destruct (lt x y); [auto|]. destruct (lt y x); auto.
  - now rewrite lt_irrefl.
  - destruct (lt x y) eqn:Hxy.
    + now rewrite (lt_asym _ _ Hxy).
    + now destruct (lt y x).
Qed.

Lemma first_nonzero_opposite (l l' : list float) :
  Forall2 opposite_answers l l' ->
  opposite_answers (first_nonzero l) (first_nonzero l').
Proof.
  induction 1 as [|r r' l l' [Hn Hp] _ IH]; simpl; [apply opposite_zero|].
  rewrite Hn. destruct (nonzero r) eqn:E; [|exact IH].
  split; [congruence|]. intros _. now apply Hp.
Qed.

(** X16. The combinators keep comparators antisymmetric. On a pair
    [(a, b)]: [reverse(cmp)] and [when(p, cmp)] are antisymmetric when
    [cmp] is; [map(f, cmp)] and [by(f, options)] are when the comparator
    they delegate to is antisymmetric on the projected pair, and always
    when they delegate to the natural [compare]; [order(...cmps)] is when
    every one of its comparators is. *)
Theorem combinators_keep_antisymmetry {T : Type} (a b : T) :
  (forall cmp : Comparator.Comparator T,
     opposite_answers (cmp a b) (cmp b a) ->
     opposite_answers (Comparator.reverse cmp a b)
                      (Comparator.reverse cmp b a) /\
     forall p,
       opposite_answers (Comparator.when p cmp a b)
                        (Comparator.when p cmp b a)) /\
  (forall (f : T -> unknown) (cmp : option (unknown -> unknown -> float)),
     (forall c, cmp = Some c -> opposite_answers (c (f a) (f b))
                                                 (c (f b) (f a))) ->
     opposite_answers (Comparator.map f cmp a b) (Comparator.map f cmp b a) /\
     forall d p,
       opposite_answers
         (Comparator.by_ f (Some (KeyOptions.mk d cmp p)) a b)
         (Comparator.by_ f (Some (KeyOptions.mk d cmp p)) b a)) /\
  (forall cmps : list (Comparator.Comparator T),
     (forall cmp, In cmp cmps -> opposite_answers (cmp a b) (cmp b a)) ->
     opposite_answers (Comparator.order cmps a b)
                      (Comparator.order cmps b a)).
Proof.
  pose proof opposite_zero as Hz.
  split; [|split].
  - intros cmp H. split.
    + now apply opposite_answers_sym.
    + intros p. unfold Comparator.when.
      destruct (p a), (p b); simpl; auto.
  - intros f cmp H.
    assert (Hc : forall x y,
              (forall c, cmp = Some c ->
                 opposite_answers (c x y) (c y x)) ->
              opposite_answers
                (match cmp with Some c => c | None => Comparator.compare end
                   x y)
                (match cmp with Some c => c | None => Comparator.compare end
                   y x)).
    { intros x y Hxy. destruct cmp as [c|]; [now apply Hxy|].
      apply compare_opposite. }
    split; [apply Hc, H|].
    intros d p. unfold Comparator.by_. simpl.
    assert (Hd : opposite_answers
              (match match d with Some d0 => d0 | None => asc end with
               | asc =>
                   match cmp with Some c => c | None => Comparator.compare end
               | desc =>
                   Comparator.reverse
                     match cmp with
                     | Some c => c
                     | None => Comparator.compare
                     end
               end (f a) (f b))
              (match match d with Some d0 => d0 | None => asc end with
               | asc =>
                   match cmp with Some c => c | None => Comparator.compare end
               | desc =>
                   Comparator.reverse
                     match cmp with
                     | Some c => c
                     | None => Comparator.compare
                     end
               end (f b) (f a))).
    { destruct (match d with Some d0 => d0 | None => asc end).
      - apply Hc, H.
      - unfold Comparator.reverse. apply opposite_answers_sym, Hc, H. }
    destruct p as [p|]; [|exact Hd].
    destruct (p a), (p b); simpl; auto.
  - intros cmps H. rewrite !order_unfold.
    apply first_nonzero_opposite.
    induction cmps as [|c cs IH]; simpl; constructor.
    + apply H. now left.
    + apply IH. intros; apply H; now right.
Qed.

End ComparatorMore.

(* ------------------------------------------------------------------ *)
(** ** [number], [date] and [boolean] as comparators *)

Section PrimitiveComparators.
Local Open Scope float_scope.

Lemma SFcompare_Eq_finite (x y : spec_float) :
  SFcompare x y = Some Eq -> (forall s, x <> S754_infinity s) ->
  forall s, y <> S754_infinity s.
Proof.
  intros Hc Hx s ->.
  destruct x as [sx|sx| |sx mx ex]; simpl in Hc; try discriminate.
  - now destruct s.
  - now destruct (Hx sx).
  - now destruct s.
Qed.

Lemma sub_equal_both (a b : float) :
  (a =? b) = true -> is_infinity a = false ->
  (a - b =? 0) = true /\ (b - a =? 0) = true.
Proof.
  intros He Hfin. split; [now apply sub_equal|].
  pose proof He as He'. rewrite <- eqb_sym in He'.
  revert He He'. rewrite !(eqb_spec _ 0), !sub_spec, !(eqb_spec a b),
    !(eqb_spec b a).
  unfold SFeqb at 1 2. intros He He'.
  destruct (SFcompare (Prim2SF a) (Prim2SF b)) as [[]|] eqn:E;
    try discriminate.
  destruct (SFcompare (Prim2SF b) (Prim2SF a)) as [[]|] eqn:E';
    try discriminate.
  apply SFsub_equal; auto using Prim2SF_valid.
  apply (SFcompare_Eq_finite _ _ E). now apply is_infinity_spec.
Qed.

Lemma difference_opposite (a b : float) :
  is_nan a = false -> is_nan b = false ->
  (is_infinity a && (a =? b)) = false ->
  opposite_answers (a - b) (b - a).
Proof.
  intros Ha Hb Hinf. unfold opposite_answers.
  destruct (float_trichotomy a b Ha Hb) as [H|[H|H]].
  - destruct (below_zero_answer _ (proj1 (sub_sign a b) H)) as [E1 E2].
    destruct (above_zero_answer _
                (proj1 (proj2 (sub_sign b a)) H)) as [E3 E4].
    rewrite E1, E2, E3, E4. auto.
  - destruct (above_zero_answer _
                (proj1 (proj2 (sub_sign a b)) H)) as [E1 E2].
    destruct (below_zero_answer _ (proj1 (sub_sign b a) H)) as [E3 E4].
    rewrite E1, E2, E3, E4. auto.
  - rewrite H, andb_true_r in Hinf.
    destruct (sub_equal_both a b H Hinf) as [E1 E2].
    destruct (zero_answer _ E1) as [E3 _].
    destruct (zero_answer _ E2) as [E4 _].
    rewrite E3, E4. split; [reflexivity|discriminate].
Qed.

Lemma number_opposite (a b : float) :
  (is_infinity a && (a =? b)) = false ->
  opposite_answers (Comparator.number a b) (Comparator.number b a).
Proof.
  intros Hinf. unfold Comparator.number.
  destruct (is_nan a) eqn:Ha, (is_nan b) eqn:Hb; simpl.
  - apply opposite_zero.
  - apply opposite_units.
  - apply opposite_units.
  - now apply difference_opposite.
Qed.

(** X17. [number] is an antisymmetric comparator except on two equal
    infinities: on every other pair, NaN included, its two answers are
    both zero or of opposite signs, and it answers zero on a number that
    is not infinite against itself. Wrapping it in [nansFirst] changes
    nothing. [date] is [number] on the time values. *)
Theorem number_is_antisymmetric (a b : float) :
  ((is_infinity a && (a =? b)) = false ->
   opposite_answers (Comparator.number a b) (Comparator.number b a)) /\
  (is_infinity a = false -> nonzero (Comparator.number a a) = false) /\
  Comparator.nansFirst Comparator.number a b = Comparator.number a b /\
  (forall x y : Date,
     Comparator.date x y = Comparator.number (getTime x) (getTime y) /\
     ((is_infinity (getTime x) && (getTime x =? getTime y)) = false ->
      opposite_answers (Comparator.date x y) (Comparator.date y x))).
Proof.
  split; [apply number_opposite|]. split; [|split].
  - intros Hfin. unfold Comparator.number.
    destruct (is_nan a) eqn:Ha; simpl; [reflexivity|].
    assert (He : (a =? a) = true).
    { unfold is_nan in Ha. now destruct (a =? a). }
    destruct (sub_equal_both a a He Hfin) as [E _].
    now destruct (zero_answer _ E).
  - unfold Comparator.nansFirst, Comparator.number, is_nan_number. simpl.
    destruct (is_nan a), (is_nan b); reflexivity.
  - intros x y. split; [reflexivity|]. apply number_opposite.
Qed.

(** X18. [boolean] puts [false] before [true]: it answers -1 on
    [(false, true)], 1 on [(true, false)] and 0 on two equal booleans, so
    its answers on the two orders of a pair are opposite. *)
Theorem boolean_orders_false_first (a b : bool) :
  Comparator.boolean a b =
    (if a then (if b then 0 else 1) else (if b then -1 else 0)) /\
  unit_sign (Comparator.boolean a b) /\
  opposite_answers (Comparator.boolean a b) (Comparator.boolean b a).
Proof.
  destruct a, b; repeat split; unfold unit_sign; auto; discriminate.
Qed.

End PrimitiveComparators.

(* ------------------------------------------------------------------ *)
(** ** The further properties on concrete inputs *)

Module MoreExamples.
Import Prim Examples.

#[local] Existing Instance prim_unknown.
#[local] Existing Instance prim_element.
#[local] Existing Instance insertion_sort.

(** No number at all: the guarded step ties every pair. *)
Definition no_numbers : list value := [Undefined; Null; Boolean true].

Example sort_of_ties :
  Order.sorted no_numbers by_number = no_numbers.
Proof. reflexivity. Qed.

Lemma sort_keeps_order_of_ties_witness :
  (forall x y,
     In x (Store.contents 0 (one_array no_numbers)) ->
     In y (Store.contents 0 (one_array no_numbers)) ->
     Order.compare by_number x y = 0%float) /\
  Store.contents (fst (Order.sort 0 by_number (one_array no_numbers)))
                 (snd (Order.sort 0 by_number (one_array no_numbers))) =
  no_numbers.
Proof.
  assert (H : forall x y,
            In x (Store.contents 0 (one_array no_numbers)) ->
            In y (Store.contents 0 (one_array no_numbers)) ->
            Order.compare by_number x y = 0%float).
  { intros x y [<-|[<-|[<-|[]]]] [<-|[<-|[<-|[]]]]; reflexivity. }
  split; [exact H|].
  exact (sort_keeps_order_of_ties 0 by_number (one_array no_numbers) H).
Defined.

(** Two steps without predicate on three elements: six key calls, step by
    step. *)
Example two_steps_key_calls :
  Order.sort_key_calls numbers (Order.then_by by_value or_zero None) =
  [(0, 0); (0, 1); (0, 2); (1, 0); (1, 1); (1, 2)].
Proof. reflexivity. Qed.

Example nulls_last_of_number :
  Comparator.nullsLast Comparator.number JNull (JValue 1%float) = 1%float /\
  Comparator.nullsLast Comparator.number (JValue 1%float) JNull
  = (-1)%float /\
  Comparator.nullsLast Comparator.number JNull JUndefined = 0%float.
Proof. repeat split. Qed.

End MoreExamples.
